(** * slack_utils: argument classification and reaction counting

    A shallow embedding of [slack_utils.py]: the five matchers
    ([parse_channel], [parse_user], [parse_email], [parse_command],
    [parse_int]), the classifier [parse_arguments] built on them, and the
    event accessors [get_id] and [get_reaction_sum].

    Conventions of the embedding.
    - A Python [str] is a [string]; a character is a code point below 256.
    - A Python exception is a value [Raise e] of the type [outcome]; a
      [try ... except ValueError] is a match on it.
    - [re.search] is modelled by a backtracking matcher that lists every way
      a pattern can match at a position, in the order in which a backtracking
      engine tries them (left alternative first, longest repetition first);
      the match found is the head of that list at the leftmost position that
      has one.
    - [int(str)] follows the interpreter's scanning loop: blanks stripped on
      both sides, an optional sign, decimal digits that single underscores may
      separate, and no more digits than the interpreter's default cap; a
      number with more digits is a [ValueError] too.
    - [commands.COMMANDS] lives in another module: the registry is a
      parameter, a dictionary from command names to dictionaries of fields. *)

From Stdlib Require Import ZArith String Ascii List Lia Bool.
From stdpp Require Import base option list strings gmap.

Local Open Scope Z_scope.
Local Open Scope string_scope.
Local Open Scope list_scope.

(** ** Exceptions *)

Inductive exn := ValueError | TypeError | IndexError | KeyError.

Inductive outcome (A : Type) : Type :=
| Ok (a : A)
| Raise (e : exn).
Arguments Ok {A} a.
Arguments Raise {A} e.

(** Sequencing stops at the first exception: [x ← m; k] is stdpp's
    notation for it. *)
#[global] Instance outcome_ret : MRet outcome := λ A a, Ok a.
#[global] Instance outcome_bind : MBind outcome := λ A B k m,
  match m with
  | Ok a => k a
  | Raise e => Raise e
  end.

(** ** The data model *)

Inductive ArgumentType := CHANNEL | USER | EMAIL | STRING | COMMAND | INT.

(** What a classified argument carries: text, a number, or Python's [None]
    (a named group that took no part in the match). *)
Inductive value :=
| VStr (s : string)
| VInt (z : Z)
| VNone.

(** What a matcher returns: the pair [(res, match)] of the source, where
    [res] is [None] or a tuple [(type, value)]. *)
Definition parse_result : Type := option (ArgumentType * value) * bool.

(** ** Regular expressions, as far as the three patterns need them *)

(** One-character atoms: a literal [c], a negated class [[^c]], and [.]
    (any character but the newline). *)
Inductive charset :=
| Lit (c : ascii)
| NotLit (c : ascii)
| Dot.

Definition accepts (cs : charset) (c : ascii) : bool :=
  match cs with
  | Lit a => Ascii.eqb c a
  | NotLit a => negb (Ascii.eqb c a)
  | Dot => negb (Ascii.eqb c "010"%char)
  end.

Inductive regex :=
| Eps
| One (cs : charset)
| Plus (cs : charset)
| Seq (r1 r2 : regex)
| Alt (r1 r2 : regex)
| Group (name : string) (r : regex).

(** A literal word is the sequence of its characters. *)
Fixpoint word (s : string) : regex :=
  match s with
  | "" => Eps
  | String c s' => Seq (One (Lit c)) (word s')
  end.

(** Captured groups, the most recent first. *)
Definition captures : Type := list (string * string).

Definition push_char (c : ascii) (p : string * string) : string * string :=
  (String c p.1, p.2).

(** The ways [cs+] can match a prefix of [s], as pairs (matched, rest), the
    longest first: the repetition is greedy. *)
Fixpoint splits (cs : charset) (s : string) : list (string * string) :=
  match s with
  | "" => []
  | String c s' =>
      if accepts cs c
      then map (push_char c) (splits cs s') ++ [(String c "", s')]
      else []
  end.

Definition no_group (p : string * string) : string * string * captures :=
  (p.1, p.2, []).

Definition after (u1 : string) (g1 : captures)
    (m : string * string * captures) : string * string * captures :=
  (u1 +:+ m.1.1, m.1.2, m.2 ++ g1).

Definition capture (n : string)
    (m : string * string * captures) : string * string * captures :=
  (m.1.1, m.1.2, (n, m.1.1) :: m.2).

(** Every way [r] can match a prefix of [s], as triples
    (matched, rest, groups), in the order of a backtracking engine. *)
Fixpoint runs (r : regex) (s : string) : list (string * string * captures) :=
  match r with
  | Eps => [("", s, [])]
  | One cs =>
      match s with
      | "" => []
      | String c s' => if accepts cs c then [(String c "", s', [])] else []
      end
  | Plus cs => map no_group (splits cs s)
  | Seq r1 r2 =>
      flat_map (λ m1, map (after m1.1.1 m1.2) (runs r2 m1.1.2)) (runs r1 s)
  | Alt r1 r2 => runs r1 s ++ runs r2 s
  | Group n r' => map (capture n) (runs r' s)
  end.

(** [re.search]: the first match at the leftmost position that has one.
    The match object is represented by the groups it captured. *)
Fixpoint search (r : regex) (s : string) : option captures :=
  match runs r s with
  | m :: _ => Some m.2
  | [] =>
      match s with
      | "" => None
      | String _ s' => search r s'
      end
  end.

Fixpoint group_names (r : regex) : list string :=
  match r with
  | Eps | One _ | Plus _ => []
  | Seq r1 r2 | Alt r1 r2 => group_names r1 ++ group_names r2
  | Group n r' => n :: group_names r'
  end.

Fixpoint assoc (n : string) (g : captures) : option string :=
  match g with
  | [] => None
  | (k, v) :: g' => if String.eqb k n then Some v else assoc n g'
  end.

(** [match.group(name)]: an [IndexError] for a name the pattern lacks,
    [None] for a group outside the alternative that matched. *)
Definition group (r : regex) (g : captures) (n : string) : outcome value :=
  if existsb (String.eqb n) (group_names r)
  then Ok (match assoc n g with Some s => VStr s | None => VNone end)
  else Raise IndexError.

(** ['<#(?P<id>[^|]+)|(?P<name>[^>])>']: the bar outside the brackets is
    the alternation, so the pattern has two alternatives, ['<#(?P<id>[^|]+)']
    and ['(?P<name>[^>])>']. *)
Definition channel_id_alt : regex :=
  Seq (word "<#") (Group "id" (Plus (NotLit "|"))).

Definition channel_name_alt : regex :=
  Seq (Group "name" (One (NotLit ">"))) (One (Lit ">")).

Definition channel_re : regex := Alt channel_id_alt channel_name_alt.

(** ['<@(?P<id>[^>]+)>'] *)
Definition user_re : regex :=
  Seq (word "<@") (Seq (Group "id" (Plus (NotLit ">"))) (One (Lit ">"))).

(** ['<mailto:(?P<email>[^|]+).+>'] *)
Definition email_re : regex :=
  Seq (word "<mailto:")
      (Seq (Group "email" (Plus (NotLit "|"))) (Seq (Plus Dot) (One (Lit ">")))).

(** ** int(str) *)

(** The blanks [int] strips: tab, line feed, vertical tab, form feed,
    carriage return, space, and above 127 the next-line and no-break-space
    characters. *)
Definition is_space (c : ascii) : bool :=
  let n := N_of_ascii c in
  ((9 <=? n) && (n <=? 13) || (n =? 32) || (n =? 133) || (n =? 160))%N.

Definition digit_val (c : ascii) : option Z :=
  let n := Z.of_N (N_of_ascii c) in
  if ((48 <=? n) && (n <=? 57))%Z then Some (n - 48) else None.

Fixpoint lstrip (s : string) : string :=
  match s with
  | "" => ""
  | String c s' => if is_space c then lstrip s' else s
  end.

(** What the digit loop saw last. *)
Inductive seen := Nothing | ADigit | AnUnderscore.

(** [sys.int_info.default_max_str_digits]: the most digits [int] converts;
    beyond it the interpreter raises [ValueError].  The code never changes
    the interpreter's setting. *)
Definition int_max_str_digits : Z := 4300.

Definition stop (prev : seen) (acc count : Z) (rest : string)
    : outcome (Z * Z * string) :=
  match prev with
  | ADigit => Ok (acc, count, rest)
  | Nothing | AnUnderscore => Raise ValueError
  end.

(** The digit loop: it consumes digits and underscores and counts the
    digits, refuses an underscore that does not follow a digit, and stops at
    the first other character; the text read must end in a digit. *)
Fixpoint scan (s : string) (prev : seen) (acc count : Z)
    : outcome (Z * Z * string) :=
  match s with
  | "" => stop prev acc count ""
  | String c s' =>
      match digit_val c with
      | Some d => scan s' ADigit (10 * acc + d) (count + 1)
      | None =>
          if Ascii.eqb c "_"
          then match prev with
               | ADigit => scan s' AnUnderscore acc count
               | Nothing | AnUnderscore => Raise ValueError
               end
          else stop prev acc count s
      end
  end.

Definition take_sign (s : string) : Z * string :=
  match s with
  | "" => (1, s)
  | String c s' =>
      if Ascii.eqb c "+" then (1, s')
      else if Ascii.eqb c "-" then (-1, s')
      else (1, s)
  end.

Definition py_int (s : string) : outcome Z :=
  let '(sign, s1) := take_sign (lstrip s) in
  '(n, count, rest) ← scan s1 Nothing 0 0;
  if (0 <? int_max_str_digits)%Z && (int_max_str_digits <? count)%Z
  then Raise ValueError
  else
    match lstrip rest with
    | "" => Ok (sign * n)
    | String _ _ => Raise ValueError
    end.

(** ** The matchers *)

Definition parse_channel (input_string : string) : outcome parse_result :=
  match search channel_re input_string with
  | None => Ok (None, false)
  | Some m => id ← group channel_re m "id"; Ok (Some (CHANNEL, id), true)
  end.

Definition parse_user (input_string : string) : outcome parse_result :=
  match search user_re input_string with
  | None => Ok (None, false)
  | Some m => id ← group user_re m "id"; Ok (Some (USER, id), true)
  end.

Definition parse_email (input_string : string) : outcome parse_result :=
  match search email_re input_string with
  | None => Ok (None, false)
  | Some m => e ← group email_re m "email"; Ok (Some (EMAIL, e), true)
  end.

Definition parse_int (input_string : string) : outcome parse_result :=
  match py_int input_string with
  | Ok z => Ok (Some (INT, VInt z), true)
  | Raise ValueError => Ok (None, false)
  | Raise e => Raise e
  end.

Section Classifier.

(** The fields of a registry entry hold values of a type the classifier
    never looks at. *)
Context {meta : Type}.
Variable COMMANDS : gmap string (gmap string meta).

(** [d[k]] on a dictionary. *)
Definition getitem {V} (d : gmap string V) (k : string) : outcome V :=
  match d !! k with
  | Some v => Ok v
  | None => Raise KeyError
  end.

Definition parse_command (input_string : string) : outcome parse_result :=
  if bool_decide (is_Some (COMMANDS !! input_string))
  then
    entry ← getitem COMMANDS input_string;
    if bool_decide (is_Some (entry !! "key"))
    then Ok (Some (COMMAND, VStr input_string), true)
    else Ok (None, false)
  else Ok (None, false).

(** The list the inner loop runs over. *)
Definition parsers : list (string → outcome parse_result) :=
  [parse_channel; parse_user; parse_email; parse_command; parse_int].

(** The inner loop: every matcher runs, and each match overwrites
    [typ] and [val].  [res[0]] on [None] would be a [TypeError]. *)
Fixpoint try_parsers (ps : list (string → outcome parse_result))
    (arg : string) (typ : ArgumentType) (val : value)
    : outcome (ArgumentType * value) :=
  match ps with
  | [] => Ok (typ, val)
  | parse :: ps' =>
      '(res, matched) ← parse arg;
      if matched : bool
      then match res with
           | Some (typ', val') => try_parsers ps' arg typ' val'
           | None => Raise TypeError
           end
      else try_parsers ps' arg typ val
  end.

(** The outer loop, with the two lists it appends to. *)
Fixpoint parse_loop (args : list string)
    (typs : list ArgumentType) (vals : list value)
    : outcome (list ArgumentType * list value) :=
  match args with
  | [] => Ok (typs, vals)
  | arg :: args' =>
      '(typ, val) ← try_parsers parsers arg STRING (VStr arg);
      parse_loop args' (typs ++ [typ]) (vals ++ [val])
  end.

Definition parse_arguments (args : list string)
    : outcome (list ArgumentType * list value) :=
  parse_loop args [] [].

End Classifier.

(** ** Events *)

Record Reaction := { name : string; count : Z }.
Record Message := { reactions : list Reaction }.
Record Event := { channel : string; ts : string; message : Message }.

Definition get_id (event : Event) : string := channel event +:+ ts event.

(** The loop of [get_reaction_sum] over its two counters. *)
Fixpoint count_votes (rs : list Reaction) (up_votes down_votes : Z) : Z * Z :=
  match rs with
  | [] => (up_votes, down_votes)
  | reaction :: rs' =>
      let up_votes :=
        if String.eqb (name reaction) "+1"
        then up_votes + count reaction else up_votes in
      let down_votes :=
        if String.eqb (name reaction) "-1"
        then down_votes + count reaction else down_votes in
      count_votes rs' up_votes down_votes
  end.

Definition get_reaction_sum (event : Event) : Z :=
  let votes := count_votes (reactions (message event)) 0 0 in
  votes.1 - votes.2.

(** ** Vocabulary of the statements *)

(** Every character of [s] passes the test [p]. *)
Fixpoint all_chars (p : ascii → bool) (s : string) : bool :=
  match s with
  | "" => true
  | String c s' => p c && all_chars p s'
  end.

(** [s] begins with [w]. *)
Fixpoint starts_with (w s : string) : bool :=
  match w, s with
  | "", _ => true
  | String _ _, "" => false
  | String a w', String b s' => Ascii.eqb a b && starts_with w' s'
  end.

(** [w] occurs somewhere in [s]. *)
Fixpoint occurs (w s : string) : bool :=
  starts_with w s ||
  match s with
  | "" => false
  | String _ s' => occurs w s'
  end.

(** A matcher returns [(None, False)] or [((type, value), True)]. *)
Definition shaped (r : parse_result) : Prop :=
  r = (None, false) ∨ ∃ tv, r = (Some tv, true).

(** The result of the last matcher of a list that matched, if any. *)
Definition last_hit (rs : list parse_result) : option (ArgumentType * value) :=
  r ← find (λ r : parse_result, r.2) (reverse rs); r.1.

(** A registry entry for [tok] that has a ["key"] field. *)
Definition voteable {meta} (COMMANDS : gmap string (gmap string meta))
    (tok : string) : Prop :=
  ∃ entry, COMMANDS !! tok = Some entry ∧ "key" ∈ dom entry.

(** The token [<#cid|cname>]. *)
Definition channel_token (cid cname : string) : string :=
  "<#" +:+ cid +:+ "|" +:+ cname +:+ ">".

(** Registries to try the classifier on: [$rename] with and without the
    ["key"] field, and a voteable command whose name is a number. *)
Definition rename_registry : gmap string (gmap string string) :=
  {[ "$rename" := {[ "key" := "k" ]} ]}.

Definition keyless_registry : gmap string (gmap string string) :=
  {[ "$rename" := ∅ ]}.

Definition numeric_registry : gmap string (gmap string string) :=
  {[ "5" := {[ "key" := "k" ]} ]}.

(** The text [cs+] cannot go on into. *)
Definition stuck (cs : charset) (r : string) : Prop :=
  match r with
  | "" => True
  | String c _ => accepts cs c = false
  end.









(** The counts of the reactions called [n], added up. *)
Definition total (n : string) (rs : list Reaction) : Z :=
  foldr Z.add 0 (count <$> filter (λ r, name r = n) rs).

(** ** The wrappers around the Slack client

    [slack_client.api_call] is a parameter: it answers a request from the
    state of the client (the workspace, the connection) and changes that
    state; it returns a response, or the name of the exception the client
    raised, which is none of the exceptions raised here.  A response is a dictionary whose fields are scalars or
    lists of flat dictionaries, the shape of the responses of the methods
    called here; Python's truth value, comparison with a string, subscript
    and iteration are modelled on these shapes.  The world a wrapper runs in
    holds the client objects, the requests sent so far, the records logged
    at levels [error] and [warning], and the two caches of [lru_cache]. *)

Module Api.

Inductive scalar :=
| SStr (s : string)
| SInt (z : Z)
| SBool (b : bool)
| SNone.

Inductive field :=
| Scalar (v : scalar)
| Items (l : list (gmap string scalar)).

Record request := { method : string; kwargs : gmap string scalar }.

(** The messages of [raise Exception(...)]. *)
Inductive complaint :=
| could_not_post_message
| could_not_get_channel (response : gmap string field)
| could_not_find_channel (response : gmap string field)
| could_not_get_user (response : gmap string field)
| could_not_find_user (response : gmap string field)
| could_not_get_self (response : gmap string field).

Inductive error :=
| Exception (c : complaint)
| KeyError (key : string)
| TypeError
| Raised (by_client : string).

Inductive attempt (A : Type) : Type :=
| Done (a : A)
| Throw (e : error).
Arguments Done {A} a.
Arguments Throw {A} e.

#[global] Instance attempt_ret : MRet attempt := λ A a, Done a.
#[global] Instance attempt_bind : MBind attempt := λ A B k m,
  match m with
  | Done a => k a
  | Throw e => Throw e
  end.

Inductive log_record :=
| LogError (response : gmap string field)
| LogWarning (response : gmap string field).

(** [not x] is [negb (truthy x)]. *)
Definition truthy (f : field) : bool :=
  match f with
  | Scalar (SStr s) => negb (String.eqb s "")
  | Scalar (SInt z) => negb (z =? 0)%Z
  | Scalar (SBool b) => b
  | Scalar SNone => false
  | Items [] => false
  | Items (_ :: _) => true
  end.

(** [v == s] for a string [s]. *)
Definition eq_str (v : scalar) (s : string) : bool :=
  match v with
  | SStr x => String.eqb x s
  | SInt _ | SBool _ | SNone => false
  end.

(** [d[k]] *)
Definition getitem {V} (d : gmap string V) (k : string) : attempt V :=
  match d !! k with
  | Some v => Done v
  | None => Throw (KeyError k)
  end.

(** The loop [for ch in items: if ch['name'] == wanted: return ch['id']];
    [None] stands for the loop running to its end. *)
Fixpoint find_named (items : list (gmap string scalar)) (wanted : string)
    : attempt (option scalar) :=
  match items with
  | [] => Done None
  | ch :: items' =>
      n ← getitem ch "name";
      if eq_str n wanted
      then i ← getitem ch "id"; Done (Some i)
      else find_named items' wanted
  end.

(** The same loop over any field: the empty string has nothing to iterate
    over, the characters of another string have no subscript ['name'], and
    the other scalars are not iterable. *)
Definition find_in (f : field) (wanted : string) : attempt (option scalar) :=
  match f with
  | Items l => find_named l wanted
  | Scalar (SStr "") => Done None
  | Scalar _ => Throw TypeError
  end.

(** [lru_cache()] keeps 128 results, the most recently used first.  The
    key of a result is the pair of the arguments of the call: the client
    object, known by its identity (a number), and the name looked up. *)
Definition maxsize : nat := 128.

Fixpoint cache_find (k : nat * string) (c : list (nat * string * scalar))
    : option scalar :=
  match c with
  | [] => None
  | (k', v) :: c' => if bool_decide (k' = k) then Some v else cache_find k c'
  end.

Fixpoint cache_drop (k : nat * string) (c : list (nat * string * scalar))
    : list (nat * string * scalar) :=
  match c with
  | [] => []
  | (k', v) :: c' =>
      if bool_decide (k' = k) then cache_drop k c' else (k', v) :: cache_drop k c'
  end.

(** A hit moves the entry to the front; a new result goes to the front and
    the oldest entry leaves a full cache. *)
Definition touch (k : nat * string) (v : scalar)
    (c : list (nat * string * scalar)) : list (nat * string * scalar) :=
  (k, v) :: cache_drop k c.

Definition store (k : nat * string) (v : scalar)
    (c : list (nat * string * scalar)) : list (nat * string * scalar) :=
  take maxsize ((k, v) :: c).

Definition channels_list : request :=
  {| method := "channels.list";
     kwargs := {[ "exclude_archived" := SBool true;
                  "exclude_members" := SBool true ]} |}.

Definition users_list : request :=
  {| method := "users.list"; kwargs := {[ "presence" := SBool false ]} |}.

Definition auth_test : request := {| method := "auth.test"; kwargs := ∅ |}.

Definition chat_postMessage (channel text : string) : request :=
  {| method := "chat.postMessage";
     kwargs := {[ "channel" := SStr channel; "text" := SStr text;
                  "as_user" := SBool true ]} |}.

Definition chat_delete (event : Event) : request :=
  {| method := "chat.delete";
     kwargs := {[ "ts" := SStr (ts event);
                  "channel" := SStr (channel event) ]} |}.

(** The states of the client objects after object [i] has moved to [a]. *)
Definition update {A} (states : nat → A) (i : nat) (a : A) : nat → A :=
  λ j, if Nat.eqb j i then a else states j.

Section Client.

(** The state of one client object, and what [api_call] does on it. *)
Variable client : Type.
Variable api_call : request → client → (string + gmap string field) * client.

(** [config.CHANNEL], the name of the one channel messages are deleted
    from. *)
Variable CHANNEL : string.

(** The state of every client object, the requests sent (with the client
    that sent them), the log, and the two caches. *)
Record world := {
  clients : nat → client;
  sent : list (nat * request);
  log : list log_record;
  channel_cache : list (nat * string * scalar);
  user_cache : list (nat * string * scalar)
}.

Definition action (A : Type) : Type := world → attempt A * world.

#[local] Instance action_ret : MRet action := λ A a w, (Done a, w).
#[local] Instance action_bind : MBind action := λ A B k m w,
  match m w with
  | (Done a, w') => k a w'
  | (Throw e, w') => (Throw e, w')
  end.

Definition raise {A} (e : error) : action A := λ w, (Throw e, w).

Definition lift {A} (a : attempt A) : action A := λ w, (a, w).

(** [slack_client.api_call(...)] *)
Definition call (slack_client : nat) (req : request)
    : action (gmap string field) := λ w,
  let answer := api_call req (clients w slack_client) in
  (match answer.1 with
   | inl name => Throw (Raised name)
   | inr response => Done response
   end,
   {| clients := update (clients w) slack_client answer.2;
      sent := sent w ++ [(slack_client, req)]; log := log w;
      channel_cache := channel_cache w; user_cache := user_cache w |}).

Definition logging (r : log_record) : action () := λ w,
  (Done (),
   {| clients := clients w; sent := sent w; log := log w ++ [r];
      channel_cache := channel_cache w; user_cache := user_cache w |}).

Definition with_channel_cache (c : list (nat * string * scalar)) (w : world)
    : world :=
  {| clients := clients w; sent := sent w; log := log w;
     channel_cache := c; user_cache := user_cache w |}.

Definition with_user_cache (c : list (nat * string * scalar)) (w : world)
    : world :=
  {| clients := clients w; sent := sent w; log := log w;
     channel_cache := channel_cache w; user_cache := c |}.

Definition with_clients (cs : nat → client) (w : world) : world :=
  {| clients := cs; sent := sent w; log := log w;
     channel_cache := channel_cache w; user_cache := user_cache w |}.

(** The decorator: a result cached for the same client object and the same
    name is returned without running the function; a result is stored only
    when the function returns. *)
Definition lru_cache (get : world → list (nat * string * scalar))
    (set : list (nat * string * scalar) → world → world)
    (f : nat → string → action scalar) (slack_client : nat) (name : string)
    : action scalar := λ w,
  match cache_find (slack_client, name) (get w) with
  | Some v => (Done v, set (touch (slack_client, name) v (get w)) w)
  | None =>
      match f slack_client name w with
      | (Done v, w') =>
          (Done v, set (store (slack_client, name) v (get w')) w')
      | (Throw e, w') => (Throw e, w')
      end
  end.

Definition post_message (slack_client : nat) (channel text : string)
    : action (gmap string field) :=
  response ← call slack_client (chat_postMessage channel text);
  ok ← lift (getitem response "ok");
  if negb (truthy ok)
  then logging (LogError response);; raise (Exception could_not_post_message)
  else mret response.

(** The function under the decorator. *)
Definition get_channel_by_name_wrapped (slack_client : nat) (channel : string)
    : action scalar :=
  response ← call slack_client channels_list;
  ok ← lift (getitem response "ok");
  if negb (truthy ok)
  then raise (Exception (could_not_get_channel response))
  else
    channels ← lift (getitem response "channels");
    found ← lift (find_in channels channel);
    match found with
    | Some id => mret id
    | None => raise (Exception (could_not_find_channel response))
    end.

Definition get_channel_by_name : nat → string → action scalar :=
  lru_cache channel_cache with_channel_cache get_channel_by_name_wrapped.

Definition get_user_by_name_wrapped (slack_client : nat) (user : string)
    : action scalar :=
  response ← call slack_client users_list;
  ok ← lift (getitem response "ok");
  if negb (truthy ok)
  then raise (Exception (could_not_get_user response))
  else
    members ← lift (getitem response "members");
    found ← lift (find_in members user);
    match found with
    | Some id => mret id
    | None => raise (Exception (could_not_find_user response))
    end.

Definition get_user_by_name : nat → string → action scalar :=
  lru_cache user_cache with_user_cache get_user_by_name_wrapped.

Definition get_self (slack_client : nat) : action field :=
  response ← call slack_client auth_test;
  ok ← lift (getitem response "ok");
  if negb (truthy ok)
  then raise (Exception (could_not_get_self response))
  else lift (getitem response "user_id").

Definition delete_message (slack_client : nat) (event : Event) : action () :=
  id ← get_channel_by_name slack_client CHANNEL;
  if negb (eq_str id (channel event))
  then mret ()
  else
    response ← call slack_client (chat_delete event);
    ok ← lift (getitem response "ok");
    if negb (truthy ok)
    then logging (LogWarning response)
    else mret ().

End Client.

Arguments clients {client} w.
Arguments sent {client} w.
Arguments log {client} w.
Arguments channel_cache {client} w.
Arguments user_cache {client} w.

(** A client to try the wrappers on: three channels, two of them called
    [general], and a workspace that refuses every other request. *)
Definition demo_channels : list (gmap string scalar) :=
  [ {[ "name" := SStr "general"; "id" := SStr "C1" ]};
    {[ "name" := SStr "random"; "id" := SStr "C2" ]};
    {[ "name" := SStr "general"; "id" := SStr "C3" ]} ].

Definition demo_api (req : request) (calls : nat)
    : (string + gmap string field) * nat :=
  if String.eqb (method req) "channels.list"
  then (inr {[ "ok" := Scalar (SBool true); "channels" := Items demo_channels ]},
        S calls)
  else (inr {[ "ok" := Scalar (SBool false) ]}, S calls).


Definition demo_world : world nat :=
  {| clients := λ _, 0%nat; sent := []; log := [];
     channel_cache := []; user_cache := [] |}.

Definition demo_event : Event :=
  {| channel := "C1"; ts := "1503435956.000247";
     message := {| reactions := [] |} |}.

End Api.

(** ** Characters and strings *)

Lemma append_nil_l (t : string) : "" +:+ t = t.
Proof. reflexivity. Qed.

Lemma append_cons (c : ascii) (s t : string) :
  String c s +:+ t = String c (s +:+ t).
Proof. reflexivity. Qed.

Lemma append_nil_r (s : string) : s +:+ "" = s.
Proof.
  induction s as [|c s IH]; [done |].
  by rewrite append_cons, IH.
Qed.

Lemma append_assoc (a b c : string) : (a +:+ b) +:+ c = a +:+ b +:+ c.
Proof.
  induction a as [|x a IH]; [done |].
  by rewrite !append_cons, IH.
Qed.

Lemma all_chars_app p (a b : string) :
  all_chars p (a +:+ b) = all_chars p a && all_chars p b.
Proof.
  induction a as [|x a IH]; [done |].
  rewrite append_cons. simpl. rewrite IH. by rewrite andb_assoc.
Qed.




(** ** What [int] accepts *)

















(** [int] raises nothing but [ValueError]. *)
Lemma scan_raises (s : string) :
  ∀ prev acc k e, scan s prev acc k = Raise e → e = ValueError.
Proof.
  induction s as [|c s IH]; intros prev acc k e; simpl.
  - destruct prev; simpl; congruence.
  - destruct (digit_val c); [by apply IH |].
    destruct (Ascii.eqb c "_"); destruct prev; simpl; eauto; congruence.
Qed.

Lemma py_int_raises (s : string) (e : exn) : py_int s = Raise e → e = ValueError.
Proof.
  unfold py_int. destruct (take_sign (lstrip s)) as [σ s1].
  destruct (scan s1 Nothing 0 0) as [[[n k] rest]|e'] eqn:Hscan; simpl.
  - destruct (int_max_str_digits <? k)%Z; [congruence |].
    destruct (lstrip rest); congruence.
  - intros [= <-]. by eapply scan_raises.
Qed.

(** ** The matchers return, and in one of two shapes *)

Lemma shaped_miss : shaped (None, false).
Proof. by left. Qed.

Lemma shaped_hit tv : shaped (Some tv, true).
Proof. right. by exists tv. Qed.

#[local] Hint Resolve shaped_miss shaped_hit : core.

Lemma group_known (r : regex) (g : captures) (n : string) :
  existsb (String.eqb n) (group_names r) = true →
  ∃ v, group r g n = Ok v.
Proof. unfold group. intros ->. eauto. Qed.

Lemma parse_channel_shaped (tok : string) :
  ∃ r, parse_channel tok = Ok r ∧ shaped r.
Proof.
  unfold parse_channel. destruct (search channel_re tok) as [g|]; [| eauto].
  destruct (group_known channel_re g "id") as [v ->]; [done |]. simpl. eauto.
Qed.

Lemma parse_user_shaped (tok : string) :
  ∃ r, parse_user tok = Ok r ∧ shaped r.
Proof.
  unfold parse_user. destruct (search user_re tok) as [g|]; [| eauto].
  destruct (group_known user_re g "id") as [v ->]; [done |]. simpl. eauto.
Qed.

Lemma parse_email_shaped (tok : string) :
  ∃ r, parse_email tok = Ok r ∧ shaped r.
Proof.
  unfold parse_email. destruct (search email_re tok) as [g|]; [| eauto].
  destruct (group_known email_re g "email") as [v ->]; [done |]. simpl. eauto.
Qed.

Lemma parse_int_shaped (tok : string) :
  ∃ r, parse_int tok = Ok r ∧ shaped r.
Proof.
  unfold parse_int. destruct (py_int tok) as [z|e] eqn:Hint; [eauto |].
  apply py_int_raises in Hint as ->. eauto.
Qed.

Section ClassifierFacts.

Context {meta : Type}.
Variable COMMANDS : gmap string (gmap string meta).

(** The matcher for commands, by cases on the registry. *)
Lemma parse_command_voteable (tok : string) :
  voteable COMMANDS tok →
  parse_command COMMANDS tok = Ok (Some (COMMAND, VStr tok), true).
Proof.
  intros (entry & Hentry & Hkey). unfold parse_command, getitem.
  rewrite Hentry. rewrite bool_decide_eq_true_2 by eauto. simpl.
  apply elem_of_dom in Hkey. by rewrite bool_decide_eq_true_2.
Qed.

Lemma parse_command_other (tok : string) :
  ¬ voteable COMMANDS tok →
  parse_command COMMANDS tok = Ok (None, false).
Proof.
  intros Hno. unfold parse_command, getitem.
  destruct (COMMANDS !! tok) as [entry|] eqn:Hentry.
  - rewrite bool_decide_eq_true_2 by eauto. simpl.
    rewrite bool_decide_eq_false_2; [done |].
    intros Hkey. apply Hno. exists entry. by rewrite elem_of_dom.
  - rewrite bool_decide_eq_false_2; [done |]. by intros [? ?].
Qed.

Lemma voteable_or_not (tok : string) :
  voteable COMMANDS tok ∨ ¬ voteable COMMANDS tok.
Proof.
  destruct (COMMANDS !! tok) as [entry|] eqn:Hentry.
  - destruct (decide ("key" ∈ dom entry)) as [Hkey|Hkey].
    + left. by exists entry.
    + right. intros (entry' & Hentry' & Hkey'). congruence.
  - right. intros (entry & Hentry' & _). congruence.
Qed.

Lemma parse_command_shaped (tok : string) :
  ∃ r, parse_command COMMANDS tok = Ok r ∧ shaped r.
Proof.
  destruct (voteable_or_not tok).
  - rewrite parse_command_voteable; eauto.
  - rewrite parse_command_other; eauto.
Qed.

(** ** The inner loop keeps the last match *)

Lemma last_hit_cons (r : parse_result) (rs : list parse_result) :
  Forall shaped rs →
  last_hit (r :: rs) =
  match last_hit rs with
  | Some tv => Some tv
  | None => if r.2 then r.1 else None
  end.
Proof.
  intros Hrs%Forall_reverse. unfold last_hit. rewrite reverse_cons.
  induction Hrs as [|x l [-> | [tv ->]] _ IH]; simpl.
  - by destruct r.2.
  - apply IH.
  - done.
Qed.

Lemma try_parsers_last ps (tok : string) (rs : list parse_result) :
  Forall2 (λ parse r, parse tok = Ok r ∧ shaped r) ps rs →
  ∀ typ val,
    try_parsers ps tok typ val = Ok (default (typ, val) (last_hit rs)).
Proof.
  induction 1 as [|parse r ps rs [Hr Hshape] Hrs IH]; intros typ val; [done |].
  simpl. rewrite Hr, last_hit_cons. 2: {
    eapply Forall2_Forall_r; [done |]. apply Forall_true. by intros ? ? [_ ?]. }
  simpl.
  destruct Hshape as [-> | [[typ' val'] ->]]; simpl; rewrite IH.
  - by destruct (last_hit rs).
  - by destruct (last_hit rs).
Qed.

Lemma parse_loop_cons (arg : string) (args : list string) typs vals :
  parse_loop COMMANDS (arg :: args) typs vals =
  '(typ, val) ← try_parsers (parsers COMMANDS) arg STRING (VStr arg);
  parse_loop COMMANDS args (typs ++ [typ]) (vals ++ [val]).
Proof. reflexivity. Qed.

Lemma parsers_shaped (tok : string) :
  ∃ rc ru re rk ri,
    parse_channel tok = Ok rc ∧ parse_user tok = Ok ru ∧
    parse_email tok = Ok re ∧ parse_command COMMANDS tok = Ok rk ∧
    parse_int tok = Ok ri ∧
    Forall2 (λ parse r, parse tok = Ok r ∧ shaped r)
      (parsers COMMANDS) [rc; ru; re; rk; ri].
Proof.
  destruct (parse_channel_shaped tok) as (rc & ? & ?).
  destruct (parse_user_shaped tok) as (ru & ? & ?).
  destruct (parse_email_shaped tok) as (re & ? & ?).
  destruct (parse_command_shaped tok) as (rk & ? & ?).
  destruct (parse_int_shaped tok) as (ri & ? & ?).
  exists rc, ru, re, rk, ri. unfold parsers.
  do 5 (split; [done |]).
  repeat (apply List.Forall2_cons; [done |]). apply List.Forall2_nil.
Qed.

(** One token: the classification is the last match among the five, in
    the order of [parsers]. *)
Lemma classify_single (tok : string) (rc ru re rk ri : parse_result) :
  parse_channel tok = Ok rc → parse_user tok = Ok ru →
  parse_email tok = Ok re → parse_command COMMANDS tok = Ok rk →
  parse_int tok = Ok ri →
  parse_arguments COMMANDS [tok] =
  Ok ([(default (STRING, VStr tok) (last_hit [rc; ru; re; rk; ri])).1],
      [(default (STRING, VStr tok) (last_hit [rc; ru; re; rk; ri])).2]).
Proof.
  intros Hc Hu He Hk Hi. unfold parse_arguments.
  destruct (parsers_shaped tok)
    as (rc' & ru' & re' & rk' & ri' & Hc' & Hu' & He' & Hk' & Hi' & Hall).
  replace rc' with rc in Hall by congruence.
  replace ru' with ru in Hall by congruence.
  replace re' with re in Hall by congruence.
  replace rk' with rk in Hall by congruence.
  replace ri' with ri in Hall by congruence.
  rewrite parse_loop_cons, (try_parsers_last _ tok _ Hall).
  by destruct (default _ _).
Qed.

End ClassifierFacts.

(** ** The patterns on the tokens of the statements *)

Lemma splits_stuck (cs : charset) (r : string) : stuck cs r → splits cs r = [].
Proof. destruct r as [|c r]; simpl; [done |]. by intros ->. Qed.

(** A run of accepted characters that cannot go on is the first choice of
    the greedy repetition. *)
Lemma splits_longest (cs : charset) (u r : string) :
  u ≠ "" → all_chars (accepts cs) u = true → stuck cs r →
  ∃ l, splits cs (u +:+ r) = (u, r) :: l.
Proof.
  intros Hne Hu Hr. induction u as [|c u IH]; [done |].
  simpl in Hu. apply andb_true_iff in Hu as [Hc Hu].
  rewrite append_cons. simpl. rewrite Hc.
  destruct u as [|c' u].
  - rewrite append_nil_l, (splits_stuck cs r) by done. simpl. eauto.
  - destruct IH as [l ->]; [done.. |]. simpl. eauto.
Qed.

Lemma search_channel_id (t u r : string) (l : list (string * string)) :
  splits (NotLit "|") t = (u, r) :: l →
  search channel_re ("<#" +:+ t) = Some [("id", u)].
Proof.
  intros Hsplit.
  rewrite !append_cons, append_nil_l. simpl. by rewrite Hsplit.
Qed.

Lemma parse_channel_id (t u r : string) (l : list (string * string)) :
  splits (NotLit "|") t = (u, r) :: l →
  parse_channel ("<#" +:+ t) = Ok (Some (CHANNEL, VStr u), true).
Proof.
  intros Hsplit. unfold parse_channel.
  by rewrite (search_channel_id t u r l).
Qed.

Lemma starts_with_bar (c : ascii) (s : string) :
  starts_with "|" (String c s) = Ascii.eqb c "|".
Proof. destruct c as [[] [] [] [] [] [] [] []]; reflexivity. Qed.

(** A text without a bar is one the class [[^|]] accepts throughout. *)
Lemma no_bar_accepted (s : string) :
  occurs "|" s = false → all_chars (accepts (NotLit "|")) s = true.
Proof.
  induction s as [|c s IH]; [done |].
  change (occurs "|" (String c s))
    with (starts_with "|" (String c s) || occurs "|" s).
  change (all_chars (accepts (NotLit "|")) (String c s))
    with (negb (Ascii.eqb c "|") && all_chars (accepts (NotLit "|")) s).
  rewrite starts_with_bar.
  destruct (Ascii.eqb c "|"); [done |]. exact IH.
Qed.

(** ** The classifier *)

Section ClassifierTheorems.

Context {meta : Type}.
Variable COMMANDS : gmap string (gmap string meta).

Lemma try_parsers_returns (tok : string) :
  ∃ typ val,
    try_parsers (parsers COMMANDS) tok STRING (VStr tok) = Ok (typ, val) ∧
    parse_arguments COMMANDS [tok] = Ok ([typ], [val]).
Proof.
  destruct (parsers_shaped COMMANDS tok)
    as (rc & ru & re & rk & ri & _ & _ & _ & _ & _ & Hall).
  pose proof (try_parsers_last _ tok _ Hall STRING (VStr tok)) as Htry.
  destruct (default _ _) as [typ val]. exists typ, val.
  split; [done |]. unfold parse_arguments.
  by rewrite parse_loop_cons, Htry.
Qed.

(** The outer loop appends one classification per token, in order. *)
Lemma parse_loop_spec (args : list string) :
  ∀ typs vals, ∃ ts vs,
    parse_loop COMMANDS args typs vals = Ok (typs ++ ts, vals ++ vs) ∧
    length ts = length args ∧ length vs = length args ∧
    ∀ (i : nat) tok, args !! i = Some tok →
      ∃ typ val,
        parse_arguments COMMANDS [tok] = Ok ([typ], [val]) ∧
        ts !! i = Some typ ∧ vs !! i = Some val.
Proof.
  induction args as [|arg args IH]; intros typs vals.
  - exists [], []. rewrite !app_nil_r. by repeat split.
  - destruct (try_parsers_returns arg) as (typ & val & Htry & Hone).
    destruct (IH (typs ++ [typ]) (vals ++ [val]))
      as (ts & vs & Hloop & Hts & Hvs & Hnth).
    exists (typ :: ts), (val :: vs).
    rewrite parse_loop_cons, Htry. simpl.
    rewrite Hloop, <- !app_assoc, Hts, Hvs. repeat split; try done.
    intros [|i] tok Hi; simpl in Hi.
    + injection Hi as <-. by exists typ, val.
    + by apply Hnth.
Qed.

(** C1: every token goes through the five matchers in the order channel,
    user, email, command, integer, each of which returns; the token's
    classification is the result of the last one that matched, and the
    token itself as [STRING] when none did.  So a token that is a voteable
    command and also an integer comes out as [INT], and a token no matcher
    accepts as [STRING] with its own text. *)
Theorem last_match_wins (tok : string) :
  parsers COMMANDS =
    [parse_channel; parse_user; parse_email; parse_command COMMANDS;
     parse_int] ∧
  ∃ rc ru re rk ri,
    parse_channel tok = Ok rc ∧ parse_user tok = Ok ru ∧
    parse_email tok = Ok re ∧ parse_command COMMANDS tok = Ok rk ∧
    parse_int tok = Ok ri ∧
    ∃ typ val,
      default (STRING, VStr tok) (last_hit [rc; ru; re; rk; ri]) = (typ, val) ∧
      parse_arguments COMMANDS [tok] = Ok ([typ], [val]) ∧
      (∀ z, voteable COMMANDS tok → py_int tok = Ok z →
            typ = INT ∧ val = VInt z) ∧
      (rc.2 = false → ru.2 = false → re.2 = false → rk.2 = false →
       ri.2 = false → typ = STRING ∧ val = VStr tok).
Proof.
  split; [done |].
  destruct (parsers_shaped COMMANDS tok)
    as (rc & ru & re & rk & ri & Hc & Hu & He & Hk & Hi & Hall).
  exists rc, ru, re, rk, ri. do 5 (split; [done |]).
  pose proof (classify_single COMMANDS tok _ _ _ _ _ Hc Hu He Hk Hi) as Hone.
  destruct (default _ _) as [typ val] eqn:Hlast. exists typ, val.
  do 2 (split; [done |]). split.
  - intros z _ Hz. unfold parse_int in Hi. rewrite Hz in Hi.
    injection Hi as <-. by injection Hlast as <- <-.
  - destruct rc as [? []], ru as [? []], re as [? []], rk as [? []],
      ri as [? []]; try done.
    intros _ _ _ _ _. by injection Hlast as <- <-.
Qed.


(** C7: the command matcher matches exactly the tokens that are keys of
    the registry whose entry has a ["key"] field, and returns the token
    itself; so ["$rename"], which no other matcher accepts, is a [COMMAND]
    when its entry has the field and a [STRING] when the entry lacks it. *)
Theorem parse_command_iff (tok : string) :
  (parse_command COMMANDS tok = Ok (Some (COMMAND, VStr tok), true) ↔
   ∃ entry, COMMANDS !! tok = Some entry ∧ "key" ∈ dom entry) ∧
  (parse_command COMMANDS tok = Ok (None, false) ↔
   ¬ ∃ entry, COMMANDS !! tok = Some entry ∧ "key" ∈ dom entry) ∧
  (∀ entry, COMMANDS !! "$rename" = Some entry → "key" ∈ dom entry →
     parse_arguments COMMANDS ["$rename"] = Ok ([COMMAND], [VStr "$rename"])) ∧
  (∀ entry, COMMANDS !! "$rename" = Some entry → "key" ∉ dom entry →
     parse_arguments COMMANDS ["$rename"] = Ok ([STRING], [VStr "$rename"])).
Proof.
  fold (voteable COMMANDS tok). repeat split.
  - intros Hhit. destruct (voteable_or_not COMMANDS tok) as [|Hno]; [done |].
    by rewrite parse_command_other in Hhit.
  - apply parse_command_voteable.
  - intros Hmiss Hyes. by rewrite parse_command_voteable in Hmiss.
  - apply parse_command_other.
  - intros entry Hentry Hkey.
    by rewrite (classify_single COMMANDS "$rename"
                  (None, false) (None, false) (None, false)
                  (Some (COMMAND, VStr "$rename"), true) (None, false))
      by (done || (apply parse_command_voteable; by exists entry)).
  - intros entry Hentry Hkey.
    rewrite (classify_single COMMANDS "$rename"
               (None, false) (None, false) (None, false)
               (None, false) (None, false)); try done.
    apply parse_command_other. intros (entry' & Hentry' & Hkey'). congruence.
Qed.

(** C8: [parse_arguments] and the five matchers return on every input and
    raise nothing: a matcher that does not match returns [(None, False)];
    the empty token raises nothing either and keeps itself as value, and it
    is classified as [STRING] (in a registry that has no voteable command of
    that name). *)
Theorem never_raises (args : list string) :
  (∃ typs vals, parse_arguments COMMANDS args = Ok (typs, vals)) ∧
  (∀ tok,
     (∃ r, parse_channel tok = Ok r ∧ shaped r) ∧
     (∃ r, parse_user tok = Ok r ∧ shaped r) ∧
     (∃ r, parse_email tok = Ok r ∧ shaped r) ∧
     (∃ r, parse_command COMMANDS tok = Ok r ∧ shaped r) ∧
     (∃ r, parse_int tok = Ok r ∧ shaped r)) ∧
  (∃ typ, parse_arguments COMMANDS [""] = Ok ([typ], [VStr ""]) ∧
          (¬ voteable COMMANDS "" → typ = STRING)).
Proof.
  split; [| split].
  - destruct (parse_loop_spec args [] []) as (ts & vs & Hloop & _).
    by exists ts, vs.
  - intros tok.
    auto using parse_channel_shaped, parse_user_shaped, parse_email_shaped,
      parse_command_shaped, parse_int_shaped.
  - destruct (voteable_or_not COMMANDS "") as [Hyes | Hno].
    + exists COMMAND. split; [| done].
      rewrite (classify_single COMMANDS ""
                 (None, false) (None, false) (None, false)
                 (Some (COMMAND, VStr ""), true) (None, false)); try done.
      by apply parse_command_voteable.
    + exists STRING. split; [| done].
      rewrite (classify_single COMMANDS ""
                 (None, false) (None, false) (None, false)
                 (None, false) (None, false)); try done.
      by apply parse_command_other.
Qed.

End ClassifierTheorems.

Lemma key_in_entry : "key" ∈ dom ({[ "key" := "k" ]} : gmap string string).
Proof. apply elem_of_dom. by eexists. Qed.

Lemma last_match_wins_witness :
  parse_arguments numeric_registry ["5"] = Ok ([INT], [VInt 5]).
Proof.
  destruct (last_match_wins numeric_registry "5")
    as (_ & rc & ru & re & rk & ri & _ & _ & _ & _ & _ &
        typ & val & _ & Hone & Hint & _).
  destruct (Hint 5) as [-> ->]; [| reflexivity | exact Hone].
  exists {[ "key" := "k" ]}. split; [reflexivity | apply key_in_entry].
Defined.

Lemma parse_command_iff_witness :
  parse_arguments rename_registry ["$rename"] =
    Ok ([COMMAND], [VStr "$rename"]) ∧
  parse_arguments keyless_registry ["$rename"] =
    Ok ([STRING], [VStr "$rename"]).
Proof.
  split.
  - apply (proj1 (proj2 (proj2 (parse_command_iff rename_registry "$rename")))
             {[ "key" := "k" ]}); [reflexivity | apply key_in_entry].
  - apply (proj2 (proj2 (proj2 (parse_command_iff keyless_registry "$rename")))
             ∅); [reflexivity | set_solver].
Defined.

Lemma never_raises_witness :
  parse_arguments rename_registry [""] = Ok ([STRING], [VStr ""]).
Proof.
  destruct (proj2 (proj2 (never_raises rename_registry []))) as (typ & Hone & Hstr).
  rewrite Hstr in Hone; [exact Hone |].
  intros (entry & Hentry & _). discriminate Hentry.
Defined.

(** The examples of the specification, in one call. *)
Example spec_examples :
  parse_arguments rename_registry
    ["hello"; "<#C052EM50K|waterloo>"; "<@U088EGWEL>";
     "<mailto:tsohlson@gmail.com|tsohlson@gmail.com>"; "5"; "5abc"; "$rename"] =
  Ok ([STRING; CHANNEL; USER; EMAIL; INT; STRING; COMMAND],
      [VStr "hello"; VStr "C052EM50K"; VStr "U088EGWEL";
       VStr "tsohlson@gmail.com"; VInt 5; VStr "5abc"; VStr "$rename"]).
Proof. by vm_compute. Qed.

(** ** Channel references *)

Lemma channel_token_id (cid cname : string) :
  cid ≠ "" → occurs "|" cid = false →
  parse_channel (channel_token cid cname) = Ok (Some (CHANNEL, VStr cid), true).
Proof.
  intros Hne Hbar. unfold channel_token.
  destruct (splits_longest (NotLit "|") cid ("|" +:+ cname +:+ ">"))
    as [l Hsplit]; [done | by apply no_bar_accepted | done |].
  by apply (parse_channel_id _ _ _ _ Hsplit).
Qed.

Lemma channel_token_no_int (cid cname : string) :
  parse_int (channel_token cid cname) = Ok (None, false).
Proof. reflexivity. Qed.

(** C3: on the token [<mailto:someone@example.com>], which has no bar, the
    email matcher matches all the same: the pattern asks for no bar, the
    class [[^|]+] gives back two characters for [.+>], and the address comes
    out without its last character. *)
Theorem email_without_bar_matches :
  parse_email "<mailto:someone@example.com>" =
    Ok (Some (EMAIL, VStr "someone@example.co"), true) ∧
  ∀ meta (COMMANDS : gmap string (gmap string meta)),
    ¬ voteable COMMANDS "<mailto:someone@example.com>" →
    parse_arguments COMMANDS ["<mailto:someone@example.com>"] =
      Ok ([EMAIL], [VStr "someone@example.co"]).
Proof.
  split; [by vm_compute |].
  intros meta COMMANDS Hno.
  rewrite (classify_single COMMANDS "<mailto:someone@example.com>"
             (Some (CHANNEL, VNone), true) (None, false)
             (Some (EMAIL, VStr "someone@example.co"), true)
             (None, false) (None, false)); try by vm_compute.
  by apply parse_command_other.
Qed.

(** C4: on a token [<#seg>] whose segment has no bar the channel matcher
    matches, and the id it returns is the whole text after [<#], closing
    bracket included: nothing is cut off before the [>]. *)
Theorem channel_id_keeps_bracket (seg : string) :
  occurs "|" seg = false →
  parse_channel ("<#" +:+ seg +:+ ">") =
    Ok (Some (CHANNEL, VStr (seg +:+ ">")), true).
Proof.
  intros Hbar.
  destruct (splits_longest (NotLit "|") (seg +:+ ">") "") as [l Hsplit].
  - by destruct seg.
  - rewrite all_chars_app, no_bar_accepted by done. done.
  - done.
  - rewrite append_nil_r in Hsplit. by apply (parse_channel_id _ _ _ _ Hsplit).
Qed.

Lemma channel_id_keeps_bracket_witness :
  parse_channel "<#C123X>" = Ok (Some (CHANNEL, VStr "C123X>"), true).
Proof. exact (channel_id_keeps_bracket "C123X" eq_refl). Defined.

(** C5, as stated, fails: a token [<#id|name>] that is neither a registry
    key nor an integer can still hold a user reference or a [mailto:]
    reference, and then the user matcher or the email matcher, which run
    later, win. *)
Lemma channel_token_with_user_inside :
  let COMMANDS : gmap string (gmap string ()) := ∅ in
  (channel_token "C1" "<@U2>" = "<#C1|<@U2>>" ∧
   "C1" ≠ "" ∧ occurs "|" "C1" = false ∧
   COMMANDS !! "<#C1|<@U2>>" = None ∧
   py_int "<#C1|<@U2>>" = Raise ValueError ∧
   parse_arguments COMMANDS ["<#C1|<@U2>>"] = Ok ([USER], [VStr "U2"]) ∧
   parse_arguments COMMANDS ["<#C1|<@U2>>"] ≠ Ok ([CHANNEL], [VStr "C1"])) ∧
  (channel_token "<mailto:ab" "n" = "<#<mailto:ab|n>" ∧
   "<mailto:ab" ≠ "" ∧ occurs "|" "<mailto:ab" = false ∧
   COMMANDS !! "<#<mailto:ab|n>" = None ∧
   py_int "<#<mailto:ab|n>" = Raise ValueError ∧
   parse_arguments COMMANDS ["<#<mailto:ab|n>"] = Ok ([EMAIL], [VStr "ab"]) ∧
   parse_arguments COMMANDS ["<#<mailto:ab|n>"] ≠
     Ok ([CHANNEL], [VStr "<mailto:ab"])).
Proof. by vm_compute. Qed.

(** C5, amended: a token [<#id|name>] with a non-empty id without a bar,
    that is not a registry key and not an integer, and that neither the user
    matcher nor the email matcher accepts, is classified as [CHANNEL] with
    the id as value; so is [<#C052EM50K|waterloo>], with value [C052EM50K],
    in a registry that lacks this key. *)
Theorem channel_token_classified {meta} (COMMANDS : gmap string (gmap string meta)) :
  (∀ cid cname,
     cid ≠ "" → occurs "|" cid = false →
     COMMANDS !! channel_token cid cname = None →
     py_int (channel_token cid cname) = Raise ValueError →
     parse_user (channel_token cid cname) = Ok (None, false) →
     parse_email (channel_token cid cname) = Ok (None, false) →
     parse_arguments COMMANDS [channel_token cid cname] =
       Ok ([CHANNEL], [VStr cid])) ∧
  (COMMANDS !! "<#C052EM50K|waterloo>" = None →
   parse_arguments COMMANDS ["<#C052EM50K|waterloo>"] =
     Ok ([CHANNEL], [VStr "C052EM50K"])).
Proof.
  assert (∀ tok, COMMANDS !! tok = None →
                 parse_command COMMANDS tok = Ok (None, false)) as Hcmd.
  { intros tok Hnone. apply parse_command_other.
    intros (entry & Hentry & _). congruence. }
  split.
  - intros cid cname Hne Hbar Hkey Hint Huser Hemail.
    by rewrite (classify_single COMMANDS (channel_token cid cname)
                  (Some (CHANNEL, VStr cid), true) (None, false) (None, false)
                  (None, false) (None, false))
      by auto using channel_token_id, channel_token_no_int.
  - intros Hkey.
    by rewrite (classify_single COMMANDS "<#C052EM50K|waterloo>"
                  (Some (CHANNEL, VStr "C052EM50K"), true) (None, false)
                  (None, false) (None, false) (None, false))
      by first [by apply Hcmd | by vm_compute].
Qed.

Lemma channel_token_classified_witness :
  parse_arguments (∅ : gmap string (gmap string ()))
    [channel_token "C052EM50K" "waterloo"] = Ok ([CHANNEL], [VStr "C052EM50K"]).
Proof.
  apply (proj1 (channel_token_classified ∅) "C052EM50K" "waterloo");
    by vm_compute.
Defined.

(** C9: the token [x>] has no [<#] in it; the first alternative of the
    channel pattern finds nothing in it, the second matches [x>], and the
    group [id] is left unset.  So the channel matcher matches with [None]
    for id, and, the later matchers not matching, the token is classified as
    [CHANNEL] with value [None]. *)
Theorem channel_without_marker {meta} (COMMANDS : gmap string (gmap string meta)) :
  ¬ voteable COMMANDS "x>" →
  ∃ tok,
    occurs "<#" tok = false ∧
    search channel_id_alt tok = None ∧
    search channel_name_alt tok = Some [("name", "x")] ∧
    parse_channel tok = Ok (Some (CHANNEL, VNone), true) ∧
    parse_user tok = Ok (None, false) ∧
    parse_email tok = Ok (None, false) ∧
    parse_int tok = Ok (None, false) ∧
    parse_arguments COMMANDS [tok] = Ok ([CHANNEL], [VNone]).
Proof.
  intros Hno. exists "x>". do 7 (split; [by vm_compute |]).
  rewrite (classify_single COMMANDS "x>"
             (Some (CHANNEL, VNone), true) (None, false) (None, false)
             (None, false) (None, false)); try by vm_compute.
  by apply parse_command_other.
Qed.

Lemma channel_without_marker_witness :
  ∃ tok,
    occurs "<#" tok = false ∧
    search channel_id_alt tok = None ∧
    search channel_name_alt tok = Some [("name", "x")] ∧
    parse_channel tok = Ok (Some (CHANNEL, VNone), true) ∧
    parse_user tok = Ok (None, false) ∧
    parse_email tok = Ok (None, false) ∧
    parse_int tok = Ok (None, false) ∧
    parse_arguments (∅ : gmap string (gmap string ())) [tok] =
      Ok ([CHANNEL], [VNone]).
Proof.
  apply (channel_without_marker ∅).
  intros (entry & Hentry & _). by rewrite lookup_empty in Hentry.
Defined.

(** ** Integers *)




(** ** Reactions *)

Lemma total_cons (n : string) (r : Reaction) (rs : list Reaction) :
  total n (r :: rs) =
  (if String.eqb (name r) n then count r else 0) + total n rs.
Proof.
  unfold total. rewrite filter_cons.
  destruct (String.eqb_spec (name r) n) as [Heq | Hne].
  - by rewrite decide_True.
  - by rewrite decide_False.
Qed.

Lemma total_app (n : string) (rs1 rs2 : list Reaction) :
  total n (rs1 ++ rs2) = total n rs1 + total n rs2.
Proof.
  induction rs1 as [|r rs1 IH]; [done |].
  rewrite <- app_comm_cons, !total_cons, IH. lia.
Qed.

Lemma count_votes_total (rs : list Reaction) :
  ∀ up_votes down_votes,
    count_votes rs up_votes down_votes =
    (up_votes + total "+1" rs, down_votes + total "-1" rs).
Proof.
  induction rs as [|r rs IH]; intros up_votes down_votes.
  - unfold total. simpl. f_equal; lia.
  - simpl count_votes. rewrite IH, !total_cons.
    destruct (String.eqb (name r) "+1"), (String.eqb (name r) "-1");
      f_equal; lia.
Qed.

(** C10: [get_reaction_sum] is the sum of the counts of the reactions named
    ["+1"] minus the sum of the counts of those named ["-1"], over the whole
    list; a reaction of another name changes nothing. *)
Theorem get_reaction_sum_spec (event : Event) :
  get_reaction_sum event =
    total "+1" (reactions (message event)) -
    total "-1" (reactions (message event)) ∧
  ∀ r rs1 rs2,
    reactions (message event) = rs1 ++ r :: rs2 →
    name r ≠ "+1" → name r ≠ "-1" →
    get_reaction_sum event =
    get_reaction_sum
      {| channel := channel event; ts := ts event;
         message := {| reactions := rs1 ++ rs2 |} |}.
Proof.
  assert (∀ ev, get_reaction_sum ev =
                total "+1" (reactions (message ev)) -
                total "-1" (reactions (message ev))) as Hsum.
  { intros ev. unfold get_reaction_sum. rewrite count_votes_total. simpl. lia. }
  split; [apply Hsum |].
  intros r rs1 rs2 Hrs Hup Hdown. rewrite !Hsum, Hrs. simpl.
  rewrite !total_app, !total_cons.
  apply String.eqb_neq in Hup as ->. apply String.eqb_neq in Hdown as ->. lia.
Qed.

(** ** More on the classifier: tokens are classified one by one *)

Section ClassifierComposition.

Context {meta : Type}.
Variable COMMANDS : gmap string (gmap string meta).

(** The two accumulators of the outer loop only ever grow at their end. *)
Lemma parse_loop_shift (args : list string) :
  ∀ typs vals,
    parse_loop COMMANDS args typs vals =
    '(ts, vs) ← parse_loop COMMANDS args [] []; Ok (typs ++ ts, vals ++ vs).
Proof.
  induction args as [|arg args IH]; intros typs vals.
  - simpl. by rewrite !app_nil_r.
  - rewrite !parse_loop_cons.
    destruct (try_parsers_returns COMMANDS arg) as (typ & val & -> & _).
    simpl. rewrite (IH (typs ++ [typ])), (IH [typ]).
    destruct (parse_loop COMMANDS args [] []) as [[ts vs]|e]; [| done].
    simpl. by rewrite <- !app_assoc.
Qed.

Lemma parse_loop_app (args1 args2 : list string) :
  ∀ typs vals,
    parse_loop COMMANDS (args1 ++ args2) typs vals =
    '(ts, vs) ← parse_loop COMMANDS args1 typs vals;
    parse_loop COMMANDS args2 ts vs.
Proof.
  induction args1 as [|arg args1 IH]; intros typs vals; [done |].
  rewrite <- app_comm_cons, !parse_loop_cons.
  destruct (try_parsers_returns COMMANDS arg) as (typ & val & -> & _).
  simpl. apply IH.
Qed.

(** X1: classifying a concatenation of two token lists gives the
    concatenation of their classifications: no token influences the
    classification of another. *)
Theorem parse_arguments_app (args1 args2 : list string) :
  parse_arguments COMMANDS (args1 ++ args2) =
  '(typs1, vals1) ← parse_arguments COMMANDS args1;
  '(typs2, vals2) ← parse_arguments COMMANDS args2;
  Ok (typs1 ++ typs2, vals1 ++ vals2).
Proof.
  unfold parse_arguments. rewrite parse_loop_app.
  destruct (parse_loop COMMANDS args1 [] []) as [[typs1 vals1]|e]; [| done].
  simpl. apply parse_loop_shift.
Qed.

End ClassifierComposition.

(** ** More on events *)

Lemma append_same_length (a1 a2 b1 b2 : string) :
  String.length a1 = String.length a2 → a1 +:+ b1 = a2 +:+ b2 →
  a1 = a2 ∧ b1 = b2.
Proof.
  revert a2. induction a1 as [|c a1 IH]; intros [|c' a2] Hlen Heq;
    try discriminate Hlen.
  - done.
  - rewrite !append_cons in Heq. injection Heq as -> Heq.
    destruct (IH a2) as [-> ->]; [by injection Hlen | done | done].
Qed.

(** X2: [get_id] glues the channel and the timestamp with nothing between
    them.  Events whose channels have the same length and whose ids are
    equal have the same channel and the same timestamp; without the
    condition on the lengths two different events can share an id. *)
Theorem get_id_injective_on_equal_lengths :
  (∀ e1 e2,
     String.length (channel e1) = String.length (channel e2) →
     get_id e1 = get_id e2 → channel e1 = channel e2 ∧ ts e1 = ts e2) ∧
  (∃ e1 e2, channel e1 ≠ channel e2 ∧ ts e1 ≠ ts e2 ∧ get_id e1 = get_id e2).
Proof.
  split.
  - intros e1 e2 Hlen Hid. by apply (append_same_length _ _ _ _ Hlen).
  - exists {| channel := "C1"; ts := "23"; message := {| reactions := [] |} |},
           {| channel := "C12"; ts := "3"; message := {| reactions := [] |} |}.
    by vm_compute.
Qed.

Lemma total_perm (n : string) (rs1 rs2 : list Reaction) :
  rs1 ≡ₚ rs2 → total n rs1 = total n rs2.
Proof.
  induction 1 as [| r rs1 rs2 _ IH | r1 r2 rs | rs1 rs2 rs3 _ IH1 _ IH2].
  - done.
  - by rewrite !total_cons, IH.
  - rewrite !total_cons. lia.
  - congruence.
Qed.

Lemma get_reaction_sum_total (event : Event) :
  get_reaction_sum event =
  total "+1" (reactions (message event)) - total "-1" (reactions (message event)).
Proof. unfold get_reaction_sum. rewrite count_votes_total. simpl. lia. Qed.

(** X3: the order of the reactions does not matter: two events whose
    reaction lists are permutations of each other have the same sum. *)
Theorem get_reaction_sum_perm (e1 e2 : Event) :
  reactions (message e1) ≡ₚ reactions (message e2) →
  get_reaction_sum e1 = get_reaction_sum e2.
Proof.
  intros Hperm. rewrite !get_reaction_sum_total.
  by rewrite (total_perm "+1" _ _ Hperm), (total_perm "-1" _ _ Hperm).
Qed.

Lemma get_reaction_sum_perm_witness :
  get_reaction_sum
    {| channel := "C1"; ts := "1";
       message := {| reactions := [ {| name := "+1"; count := 3 |};
                                    {| name := "-1"; count := 1 |} ] |} |} =
  get_reaction_sum
    {| channel := "C1"; ts := "1";
       message := {| reactions := [ {| name := "-1"; count := 1 |};
                                    {| name := "+1"; count := 3 |} ] |} |}.
Proof. apply get_reaction_sum_perm. simpl. apply Permutation_swap. Defined.

(** X4: an event without reactions sums to 0, and the sum over two lists of
    reactions put end to end is the sum of the two sums; several entries of
    the same name add up. *)
Theorem get_reaction_sum_app (c t : string) (rs1 rs2 : list Reaction) :
  get_reaction_sum {| channel := c; ts := t; message := {| reactions := [] |} |} = 0 ∧
  get_reaction_sum
    {| channel := c; ts := t; message := {| reactions := rs1 ++ rs2 |} |} =
  get_reaction_sum {| channel := c; ts := t; message := {| reactions := rs1 |} |} +
  get_reaction_sum {| channel := c; ts := t; message := {| reactions := rs2 |} |}.
Proof.
  split; [done |].
  rewrite !get_reaction_sum_total. simpl. rewrite !total_app. lia.
Qed.

(** ** More on the patterns *)

Lemma absent_accepted (c : ascii) (s : string) :
  occurs (String c "") s = false → all_chars (accepts (NotLit c)) s = true.
Proof.
  induction s as [|x s IH]; [done |].
  change (occurs (String c "") (String x s))
    with (Ascii.eqb c x && true || occurs (String c "") s).
  change (all_chars (accepts (NotLit c)) (String x s))
    with (negb (Ascii.eqb x c) && all_chars (accepts (NotLit c)) s).
  rewrite andb_true_r, (Ascii.eqb_sym x c).
  destruct (Ascii.eqb c x); [done |]. exact IH.
Qed.

Lemma flat_map_nil {A B} (f : A → list B) (l : list A) :
  (∀ x, In x l → f x = []) → flat_map f l = [].
Proof.
  induction l as [|x l IH]; [done |]. intros Hf. simpl.
  rewrite (Hf x) by by left. apply IH. intros y Hy. apply Hf. by right.
Qed.

(** What a run leaves is the end of the text it ran on. *)
Lemma splits_rest_chars (p : ascii → bool) (cs : charset) (s : string) :
  ∀ m, all_chars p s = true → In m (splits cs s) → all_chars p m.2 = true.
Proof.
  induction s as [|c s IH]; intros m Hs Hm; [done |].
  simpl in Hs, Hm. apply andb_true_iff in Hs as [_ Hs].
  destruct (accepts cs c); [| done].
  apply in_app_iff in Hm as [Hm | [<- | []]]; [| done].
  apply in_map_iff in Hm as (m' & <- & Hm'). simpl. by apply IH.
Qed.

Lemma runs_rest_chars (p : ascii → bool) (r : regex) :
  ∀ s m, all_chars p s = true → In m (runs r s) → all_chars p m.1.2 = true.
Proof.
  induction r as [| cs | cs | r1 IH1 r2 IH2 | r1 IH1 r2 IH2 | n r IH];
    intros s m Hs Hm; simpl in Hm.
  - by destruct Hm as [<- | []].
  - destruct s as [|c s]; [done |]. simpl in Hs.
    apply andb_true_iff in Hs as [_ Hs].
    destruct (accepts cs c); [| done]. by destruct Hm as [<- | []].
  - apply in_map_iff in Hm as (m' & <- & Hm'). simpl.
    by apply (splits_rest_chars p cs s).
  - apply in_flat_map in Hm as (m1 & Hm1 & Hm).
    apply in_map_iff in Hm as (m2 & <- & Hm2). simpl.
    apply (IH2 m1.1.2); [by apply (IH1 s) | done].
  - apply in_app_iff in Hm as [Hm | Hm]; eauto.
  - apply in_map_iff in Hm as (m' & <- & Hm'). simpl. by apply (IH s).
Qed.

(** A pattern that ends in a literal character has no run on a text without
    that character. *)
Lemma runs_lit_absent (c : ascii) (s : string) :
  all_chars (accepts (NotLit c)) s = true → runs (One (Lit c)) s = [].
Proof.
  destruct s as [|x s]; [done |]. simpl.
  intros [Hx _]%andb_true_iff. apply negb_true_iff in Hx. by rewrite Hx.
Qed.

Lemma runs_seq_absent (p : ascii → bool) (r1 r2 : regex) :
  (∀ s, all_chars p s = true → runs r2 s = []) →
  ∀ s, all_chars p s = true → runs (Seq r1 r2) s = [].
Proof.
  intros Hr2 s Hs. simpl. apply flat_map_nil. intros m1 Hm1.
  rewrite Hr2; [done |]. by apply (runs_rest_chars p r1 s).
Qed.

Lemma runs_word_miss (w : string) :
  ∀ s, starts_with w s = false → runs (word w) s = [].
Proof.
  induction w as [|c w IH]; intros s Hs; [done |].
  destruct s as [|x s]; [done |].
  change (starts_with (String c w) (String x s))
    with (Ascii.eqb c x && starts_with w s) in Hs.
  change (runs (word (String c w)) (String x s))
    with (flat_map (λ m1, map (after m1.1.1 m1.2) (runs (word w) m1.1.2))
            (if Ascii.eqb x c then [(String x "", s, [])] else [])).
  rewrite (Ascii.eqb_sym x c). destruct (Ascii.eqb c x); [| done].
  simpl in *. by rewrite IH.
Qed.

Lemma search_none (P : string → Prop) (r : regex) :
  (∀ c s, P (String c s) → P s) → (∀ s, P s → runs r s = []) →
  ∀ s, P s → search r s = None.
Proof.
  intros Htail Hruns s. induction s as [|c s IH]; intros Hs.
  - simpl. by rewrite Hruns.
  - simpl. rewrite Hruns by done. apply IH. by apply (Htail c).
Qed.

Lemma occurs_head (w s : string) :
  occurs w s = false → starts_with w s = false.
Proof. destruct s; simpl; intros Ho; by apply orb_false_iff in Ho as [? _]. Qed.

Lemma occurs_tail (w : string) (c : ascii) (s : string) :
  occurs w (String c s) = false → occurs w s = false.
Proof. simpl. intros Ho. by apply orb_false_iff in Ho as [_ ?]. Qed.

Lemma search_needs_word (w : string) (r : regex) (s : string) :
  occurs w s = false → search (Seq (word w) r) s = None.
Proof.
  apply (search_none (λ s, occurs w s = false)).
  - apply occurs_tail.
  - intros t Ht. apply occurs_head in Ht as Hw.
    change (runs (Seq (word w) r) t)
      with (flat_map (λ m1, map (after m1.1.1 m1.2) (runs r m1.1.2))
              (runs (word w) t)).
    by rewrite runs_word_miss.
Qed.

Lemma search_absent (c : ascii) (r : regex) (s : string) :
  (∀ t, all_chars (accepts (NotLit c)) t = true → runs r t = []) →
  occurs (String c "") s = false → search r s = None.
Proof.
  intros Hr Hs. apply (search_none (λ t, all_chars (accepts (NotLit c)) t = true)).
  - intros x t Ht. simpl in Ht. by apply andb_true_iff in Ht as [_ ?].
  - done.
  - by apply absent_accepted.
Qed.

Lemma flat_map_nil_inv {A B} (f : A → list B) (l : list A) :
  flat_map f l = [] → ∀ x, In x l → f x = [].
Proof.
  induction l as [|y l IH]; [done |]. simpl.
  intros [Hy Hl]%app_eq_nil x [<- | Hx]; auto.
Qed.

Lemma splits_member (cs : charset) (u r : string) :
  u ≠ "" → all_chars (accepts cs) u = true → In (u, r) (splits cs (u +:+ r)).
Proof.
  intros Hne Hu. induction u as [|c u IH]; [done |].
  simpl in Hu. apply andb_true_iff in Hu as [Hc Hu].
  rewrite append_cons. simpl. rewrite Hc. apply in_app_iff.
  destruct u as [|c' u].
  - right. by left.
  - left. apply in_map_iff. exists (String c' u, r). split; [done |].
    by apply IH.
Qed.

(** The end of the email pattern, [.+>], has a run on every text that holds
    a [>] after at least one character and no line break before it; no run
    of it captures a group. *)
Lemma runs_dots_bracket (u rest : string) :
  u ≠ "" → all_chars (accepts Dot) u = true →
  ∃ m l, runs (Seq (Plus Dot) (One (Lit ">"))) (u +:+ String ">" rest) = m :: l ∧
         m.2 = [].
Proof.
  intros Hne Hu.
  destruct (runs _ _) as [|m l] eqn:Hruns.
  - exfalso. simpl in Hruns.
    pose proof (splits_member Dot u (String ">" rest) Hne Hu) as Hin.
    apply (in_map no_group) in Hin.
    by pose proof (flat_map_nil_inv _ _ Hruns _ Hin).
  - exists m, l. split; [done |].
    assert (In m (runs (Seq (Plus Dot) (One (Lit ">"))) (u +:+ String ">" rest)))
      as Hm by (rewrite Hruns; by left).
    simpl in Hm. apply in_flat_map in Hm as (m1 & Hm1 & Hm).
    apply in_map_iff in Hm1 as (m0 & <- & _).
    apply in_map_iff in Hm as (m2 & <- & Hm2). clear Hruns.
    destruct m0 as [u0 [|x t]]; simpl in *; [done |].
    destruct (Ascii.eqb x ">"); [| done]. by destruct Hm2 as [<- | []].
Qed.

Lemma search_suffix (r : regex) (p s : string) :
  runs r s ≠ [] → is_Some (search r (p +:+ s)).
Proof.
  intros Hruns. induction p as [|c p IH].
  - rewrite append_nil_l.
    destruct s as [|x s]; simpl.
    + destruct (runs r "") as [|m l]; [done | by exists m.2].
    + destruct (runs r (String x s)) as [|m l]; [done | by exists m.2].
  - rewrite append_cons. simpl.
    destruct (runs r (String c (p +:+ s))) as [|m l]; [done | by exists m.2].
Qed.

Lemma last_char (p : ascii → bool) (s : string) :
  s ≠ "" → all_chars p s = true →
  ∃ u c, s = u +:+ String c "" ∧ p c = true.
Proof.
  intros Hne Hs. induction s as [|x s IH]; [done |].
  simpl in Hs. apply andb_true_iff in Hs as [Hx Hs].
  destruct s as [|y s].
  - by exists "", x.
  - destruct IH as (u & c & -> & Hc); [done.. |].
    exists (String x u), c. by rewrite append_cons.
Qed.

Section ReferenceTokens.

Context {meta : Type}.
Variable COMMANDS : gmap string (gmap string meta).

(** X5: the user matcher matches only tokens that hold [<@], and the email
    matcher only tokens that hold [<mailto:]. *)
Theorem matchers_need_their_marker (tok : string) :
  (occurs "<@" tok = false → parse_user tok = Ok (None, false)) ∧
  (occurs "<mailto:" tok = false → parse_email tok = Ok (None, false)).
Proof.
  split; intros Hno.
  - unfold parse_user, user_re. by rewrite search_needs_word.
  - unfold parse_email, email_re. by rewrite search_needs_word.
Qed.

(** X6: a token without [>] and without [<#] is accepted by none of the
    three pattern matchers; when it is neither a voteable command nor an
    integer it is a [STRING] with itself as value. *)
Theorem bracket_free_token (tok : string) :
  occurs ">" tok = false → occurs "<#" tok = false →
  parse_channel tok = Ok (None, false) ∧
  parse_user tok = Ok (None, false) ∧
  parse_email tok = Ok (None, false) ∧
  (¬ voteable COMMANDS tok → py_int tok = Raise ValueError →
   parse_arguments COMMANDS [tok] = Ok ([STRING], [VStr tok])).
Proof.
  intros Hgt Hmark.
  assert (parse_channel tok = Ok (None, false)) as Hc.
  { unfold parse_channel.
    rewrite (search_none
               (λ s, all_chars (accepts (NotLit ">")) s = true ∧
                     occurs "<#" s = false)); [done | | |].
    - intros c s [Hs Ho]. split.
      + simpl in Hs. by apply andb_true_iff in Hs as [_ ?].
      + by apply (occurs_tail _ c).
    - intros s [Hs Ho].
      change (runs channel_re s)
        with (runs channel_id_alt s ++ runs channel_name_alt s).
      apply occurs_head in Ho as Hw.
      unfold channel_id_alt, channel_name_alt.
      change (runs (Seq (word "<#") (Group "id" (Plus (NotLit "|")))) s)
        with (flat_map (λ m1, map (after m1.1.1 m1.2)
                                (runs (Group "id" (Plus (NotLit "|"))) m1.1.2))
                (runs (word "<#") s)).
      rewrite runs_word_miss by done. simpl flat_map.
      rewrite (runs_seq_absent (accepts (NotLit ">"))); [done | | done].
      apply runs_lit_absent.
    - split; [by apply absent_accepted | done]. }
  assert (parse_user tok = Ok (None, false)) as Hu.
  { unfold parse_user, user_re.
    rewrite (search_absent ">"); [done | | done].
    do 2 (apply runs_seq_absent). apply runs_lit_absent. }
  assert (parse_email tok = Ok (None, false)) as He.
  { unfold parse_email, email_re.
    rewrite (search_absent ">"); [done | | done].
    do 3 (apply runs_seq_absent). apply runs_lit_absent. }
  do 3 (split; [done |]). intros Hno Hint.
  rewrite (classify_single COMMANDS tok (None, false) (None, false)
             (None, false) (None, false) (None, false)); try done.
  - by apply parse_command_other.
  - unfold parse_int. by rewrite Hint.
Qed.

(** X7: on a token that begins with [<@uid>], where [uid] is not empty and
    has no [>] in it, the user matcher returns [uid]; the token [<@uid>]
    itself is classified as [USER] with value [uid] when it holds no
    [<mailto:] and is not a voteable command, although the channel matcher
    accepts it as well. *)
Theorem user_reference (uid rest : string) :
  uid ≠ "" → occurs ">" uid = false →
  parse_user ("<@" +:+ uid +:+ ">" +:+ rest) = Ok (Some (USER, VStr uid), true) ∧
  (∃ r, parse_channel ("<@" +:+ uid +:+ ">") = Ok (Some r, true)) ∧
  (occurs "<mailto:" ("<@" +:+ uid +:+ ">") = false →
   ¬ voteable COMMANDS ("<@" +:+ uid +:+ ">") →
   parse_arguments COMMANDS ["<@" +:+ uid +:+ ">"] = Ok ([USER], [VStr uid])).
Proof.
  intros Hne Hgt. apply absent_accepted in Hgt.
  assert (∀ t, parse_user ("<@" +:+ uid +:+ ">" +:+ t) =
               Ok (Some (USER, VStr uid), true)) as Huser.
  { intros t.
    destruct (splits_longest (NotLit ">") uid (String ">" t))
      as [l Hsplit]; [done.. |].
    unfold parse_user. rewrite !append_cons, !append_nil_l. simpl.
    rewrite Hsplit. by simpl. }
  assert (∃ r, parse_channel ("<@" +:+ uid +:+ ">") = Ok (Some r, true))
    as [r Hchannel].
  { destruct (last_char _ uid Hne Hgt) as (u & c & -> & Hc).
    destruct (search_suffix channel_re ("<@" +:+ u) (String c (String ">" "")))
      as [g Hg].
    - change (runs channel_re (String c (String ">" "")))
        with (runs channel_id_alt (String c (String ">" "")) ++
              runs channel_name_alt (String c (String ">" ""))).
      assert (runs channel_name_alt (String c ">") =
              [(String c ">", "", [("name", String c "")])]) as ->.
      { simpl. simpl in Hc. by rewrite Hc. }
      by destruct (runs channel_id_alt _).
    - unfold parse_channel.
      replace ("<@" +:+ (u +:+ String c "") +:+ ">")
        with (("<@" +:+ u) +:+ String c ">") by (by rewrite !append_assoc).
      rewrite Hg.
      destruct (group_known channel_re g "id") as [v ->]; [done |].
      by exists (CHANNEL, v). }
  split; [apply Huser |]. split; [by exists r |].
  intros Hmail Hno.
  rewrite (classify_single COMMANDS _ (Some r, true)
             (Some (USER, VStr uid), true) (None, false) (None, false)
             (None, false)); try done.
  - specialize (Huser ""). by rewrite append_nil_r in Huser.
  - unfold parse_email, email_re. by rewrite search_needs_word.
  - by apply parse_command_other.
Qed.

(** X8: on [<mailto:addr|display>], where [addr] is not empty and has no
    bar and [display] has no line break, the email matcher returns [addr];
    [display] may be empty.  The token is classified as [EMAIL] with value
    [addr] unless it is a voteable command. *)
Theorem email_reference (addr display : string) :
  addr ≠ "" → occurs "|" addr = false →
  all_chars (accepts Dot) display = true →
  parse_email ("<mailto:" +:+ addr +:+ "|" +:+ display +:+ ">") =
    Ok (Some (EMAIL, VStr addr), true) ∧
  (¬ voteable COMMANDS ("<mailto:" +:+ addr +:+ "|" +:+ display +:+ ">") →
   parse_arguments COMMANDS ["<mailto:" +:+ addr +:+ "|" +:+ display +:+ ">"] =
     Ok ([EMAIL], [VStr addr])).
Proof.
  intros Hne Hbar Hdisplay.
  assert (parse_email ("<mailto:" +:+ addr +:+ "|" +:+ display +:+ ">") =
          Ok (Some (EMAIL, VStr addr), true)) as Hemail.
  { destruct (splits_longest (NotLit "|") addr
                (String "|" (display +:+ String ">" "")))
      as [l Hsplit]; [done | by apply no_bar_accepted | done |].
    destruct (runs_dots_bracket (String "|" display) "") as (m & l' & Hruns & Hm).
    { done. }
    { simpl. by rewrite Hdisplay. }
    rewrite append_cons in Hruns.
    unfold parse_email. rewrite !append_cons, !append_nil_l. simpl.
    rewrite Hsplit. simpl. simpl in Hruns. rewrite Hruns. simpl.
    rewrite Hm. by simpl. }
  split; [done |]. intros Hno.
  destruct (parse_channel_shaped ("<mailto:" +:+ addr +:+ "|" +:+ display +:+ ">"))
    as (rc & Hc & _).
  destruct (parse_user_shaped ("<mailto:" +:+ addr +:+ "|" +:+ display +:+ ">"))
    as (ru & Hu & _).
  rewrite (classify_single COMMANDS _ rc ru (Some (EMAIL, VStr addr), true)
             (None, false) (None, false)); try done.
  by apply parse_command_other.
Qed.

(** X17: the two matchers that run last decide first: a token [int]
    accepts is an [INT] whatever the registry and the patterns say, and a
    voteable command [int] rejects is a [COMMAND] whatever the patterns
    say. *)
Theorem int_and_command_precedence (tok : string) :
  (∀ z, py_int tok = Ok z →
        parse_arguments COMMANDS [tok] = Ok ([INT], [VInt z])) ∧
  (voteable COMMANDS tok → py_int tok = Raise ValueError →
   parse_arguments COMMANDS [tok] = Ok ([COMMAND], [VStr tok])).
Proof.
  destruct (parsers_shaped COMMANDS tok)
    as (rc & ru & re & rk & ri & Hc & Hu & He & Hk & Hi & _).
  split.
  - intros z Hz.
    rewrite (classify_single COMMANDS tok rc ru re rk (Some (INT, VInt z), true));
      try done.
    unfold parse_int. by rewrite Hz.
  - intros Hyes Hint.
    rewrite (classify_single COMMANDS tok rc ru re
               (Some (COMMAND, VStr tok), true) (None, false)); try done.
    + by apply parse_command_voteable.
    + unfold parse_int. by rewrite Hint.
Qed.

End ReferenceTokens.

Lemma bracket_free_token_witness :
  parse_arguments rename_registry ["hello"] = Ok ([STRING], [VStr "hello"]).
Proof.
  apply (bracket_free_token rename_registry "hello" eq_refl eq_refl);
    [| reflexivity].
  intros (entry & Hentry & _). discriminate Hentry.
Defined.

Lemma user_reference_witness :
  parse_arguments rename_registry ["<@U088EGWEL>"] =
    Ok ([USER], [VStr "U088EGWEL"]).
Proof.
  apply (user_reference rename_registry "U088EGWEL" ""
           ltac:(discriminate) eq_refl); [reflexivity |].
  intros (entry & Hentry & _). discriminate Hentry.
Defined.

Lemma email_reference_witness :
  parse_arguments rename_registry ["<mailto:tsohlson@gmail.com|>"] =
    Ok ([EMAIL], [VStr "tsohlson@gmail.com"]).
Proof.
  apply (email_reference rename_registry "tsohlson@gmail.com" ""
           ltac:(discriminate) eq_refl eq_refl).
  intros (entry & Hentry & _). discriminate Hentry.
Defined.

(** ** The wrappers around the Slack client *)

Module ApiFacts.
Import Api.

Lemma cache_find_touch (k : nat * string) (v : scalar)
    (c : list (nat * string * scalar)) :
  cache_find k (touch k v c) = Some v.
Proof. unfold touch. simpl. by rewrite bool_decide_eq_true_2. Qed.

Lemma cache_find_store (k : nat * string) (v : scalar)
    (c : list (nat * string * scalar)) :
  cache_find k (store k v c) = Some v.
Proof. unfold store. simpl. by rewrite bool_decide_eq_true_2. Qed.

Lemma getitem_Some {V} (d : gmap string V) (k : string) (v : V) :
  d !! k = Some v → getitem d k = Done v.
Proof. unfold getitem. by intros ->. Qed.

Lemma getitem_None {V} (d : gmap string V) (k : string) :
  d !! k = None → getitem d k = Throw (KeyError k).
Proof. unfold getitem. by intros ->. Qed.

(** The loop returns the id of the first item of the wanted name. *)
Lemma find_named_first (items : list (gmap string scalar)) (wanted : string) :
  ∀ (i : nat) ch id,
    items !! i = Some ch →
    ch !! "name" = Some (SStr wanted) → ch !! "id" = Some id →
    (∀ (j : nat) ch', (j < i)%nat → items !! j = Some ch' →
       ∃ n, ch' !! "name" = Some n ∧ eq_str n wanted = false) →
    find_named items wanted = Done (Some id).
Proof.
  induction items as [|ch0 items IH]; intros i ch id Hi Hname Hid Hbefore.
  - by rewrite lookup_nil in Hi.
  - destruct i as [|i]; simpl in Hi.
    + assert (ch0 = ch) as -> by congruence.
      simpl. rewrite (getitem_Some _ _ _ Hname), (getitem_Some _ _ _ Hid).
      simpl. by rewrite String.eqb_refl.
    + destruct (Hbefore 0%nat ch0) as (n & Hn & Hne); [lia | done |].
      simpl. rewrite (getitem_Some _ _ _ Hn). simpl. rewrite Hne.
      apply (IH i ch id); try done.
      intros j ch' Hj Hch'. apply (Hbefore (S j)); [lia | done].
Qed.

Lemma find_named_none (items : list (gmap string scalar)) (wanted : string) :
  (∀ (j : nat) ch', items !! j = Some ch' →
     ∃ n, ch' !! "name" = Some n ∧ eq_str n wanted = false) →
  find_named items wanted = Done None.
Proof.
  induction items as [|ch0 items IH]; intros Hall; [done |].
  destruct (Hall 0%nat ch0) as (n & Hn & Hne); [done |].
  simpl. rewrite (getitem_Some _ _ _ Hn). simpl. rewrite Hne.
  apply IH. intros j ch' Hch'. by apply (Hall (S j)).
Qed.

Lemma cache_drop_sublist (k : nat * string) (c : list (nat * string * scalar)) :
  cache_drop k c `sublist_of` c.
Proof.
  induction c as [|[k' v] c IH]; simpl; [constructor |].
  case_bool_decide; by constructor.
Qed.

Lemma cache_drop_absent (k : nat * string) (c : list (nat * string * scalar)) :
  k ∉ (cache_drop k c).*1.
Proof.
  induction c as [|[k' v] c IH]; simpl; [by intros ?%elem_of_nil |].
  case_bool_decide as Hk; [done |].
  simpl. intros [-> | Hin]%elem_of_cons; done.
Qed.

Lemma cache_drop_shorter (k : nat * string) (v : scalar)
    (c : list (nat * string * scalar)) :
  cache_find k c = Some v → (length (cache_drop k c) < length c)%nat.
Proof.
  induction c as [|[k' v'] c IH]; simpl; [done |].
  case_bool_decide.
  - intros _. pose proof (sublist_length _ _ (cache_drop_sublist k c)). lia.
  - intros Hfind%IH. simpl. lia.
Qed.

Lemma cache_find_absent (k : nat * string) (c : list (nat * string * scalar)) :
  cache_find k c = None → k ∉ c.*1.
Proof.
  induction c as [|[k' v] c IH]; simpl; [by intros _ ?%elem_of_nil |].
  case_bool_decide as Hk; [done |].
  intros Hfind%IH [-> | Hin]%elem_of_cons; done.
Qed.

(** A key that is not in the cache is not there after another key has been
    moved or stored. *)
Lemma cache_find_drop_none (k k' : nat * string)
    (c : list (nat * string * scalar)) :
  cache_find k c = None → cache_find k (cache_drop k' c) = None.
Proof.
  induction c as [|[k0 v] c IH]; simpl; [done |].
  case_bool_decide as Hk; [done |]. intros Hfind%IH.
  case_bool_decide; [done |]. simpl. by rewrite bool_decide_eq_false_2.
Qed.

Lemma cache_find_take_none (k : nat * string) (n : nat)
    (c : list (nat * string * scalar)) :
  cache_find k c = None → cache_find k (take n c) = None.
Proof.
  revert n. induction c as [|[k0 v] c IH]; intros [|n]; simpl; try done.
  case_bool_decide; [done |]. apply IH.
Qed.

(** The two moves of the cache keep it within [maxsize] entries and keep
    its keys distinct. *)
Lemma touch_invariant (k : nat * string) (v : scalar)
    (c : list (nat * string * scalar)) :
  cache_find k c = Some v →
  ((length c ≤ maxsize)%nat → (length (touch k v c) ≤ maxsize)%nat) ∧
  (NoDup c.*1 → NoDup (touch k v c).*1).
Proof.
  intros Hfind. unfold touch. split.
  - pose proof (cache_drop_shorter k v c Hfind). simpl. lia.
  - intros Hc. simpl. apply NoDup_cons. split; [apply cache_drop_absent |].
    eapply sublist_NoDup; [exact Hc | apply fmap_sublist, cache_drop_sublist].
Qed.

Lemma store_invariant (k : nat * string) (v : scalar)
    (c : list (nat * string * scalar)) :
  cache_find k c = None →
  (length (store k v c) ≤ maxsize)%nat ∧ (NoDup c.*1 → NoDup (store k v c).*1).
Proof.
  intros Hfind%cache_find_absent. unfold store. split.
  - rewrite length_take. lia.
  - intros Hc. rewrite fmap_take.
    eapply sublist_NoDup; [| apply sublist_take].
    simpl. by apply NoDup_cons.
Qed.

Section ClientFacts.

Variable client : Type.
Variable api_call : request → client → (string + gmap string field) * client.
Variable CHANNEL : string.

(** The function under the decorator sends one request and touches neither
    the caches nor the log. *)
Lemma wrapped_frame (slack_client : nat) (name : string) (w : world client) :
  let r := get_channel_by_name_wrapped client api_call slack_client name w in
  sent r.2 = sent w ++ [(slack_client, channels_list)] ∧ log r.2 = log w ∧
  channel_cache r.2 = channel_cache w ∧ user_cache r.2 = user_cache w.
Proof.
  unfold get_channel_by_name_wrapped, call, lift, raise.
  unfold mbind, action_bind, mret, action_ret. simpl.
  destruct (api_call channels_list (clients w slack_client))
    as [[e|resp] c']; simpl; [done |].
  destruct (getitem resp "ok") as [ok|e]; simpl; [| done].
  destruct (truthy ok); simpl; [| done].
  destruct (getitem resp "channels") as [chans|e]; simpl; [| done].
  destruct (find_in chans name) as [[id|]|e]; simpl; done.
Qed.

Lemma user_wrapped_frame (slack_client : nat) (name : string)
    (w : world client) :
  let r := get_user_by_name_wrapped client api_call slack_client name w in
  sent r.2 = sent w ++ [(slack_client, users_list)] ∧ log r.2 = log w ∧
  channel_cache r.2 = channel_cache w ∧ user_cache r.2 = user_cache w.
Proof.
  unfold get_user_by_name_wrapped, call, lift, raise.
  unfold mbind, action_bind, mret, action_ret. simpl.
  destruct (api_call users_list (clients w slack_client))
    as [[e|resp] c']; simpl; [done |].
  destruct (getitem resp "ok") as [ok|e]; simpl; [| done].
  destruct (truthy ok); simpl; [| done].
  destruct (getitem resp "members") as [chans|e]; simpl; [| done].
  destruct (find_in chans name) as [[id|]|e]; simpl; done.
Qed.

(** X9: with nothing cached for the client and the name, a truthy ['ok']
    and a list under ['channels'], [get_channel_by_name] returns the id of
    the first channel of that name, also when several channels have it; it
    raises [could not find channel] when every channel has another name. *)
Theorem get_channel_by_name_first (slack_client : nat) (name : string)
    (w : world client) (resp : gmap string field) (c' : client) (ok : field)
    (items : list (gmap string scalar)) :
  cache_find (slack_client, name) (channel_cache w) = None →
  api_call channels_list (clients w slack_client) = (inr resp, c') →
  resp !! "ok" = Some ok → truthy ok = true →
  resp !! "channels" = Some (Items items) →
  (∀ (i : nat) ch id,
     items !! i = Some ch →
     ch !! "name" = Some (SStr name) → ch !! "id" = Some id →
     (∀ (j : nat) ch', (j < i)%nat → items !! j = Some ch' →
        ∃ n, ch' !! "name" = Some n ∧ eq_str n name = false) →
     (get_channel_by_name client api_call slack_client name w).1 = Done id) ∧
  ((∀ (j : nat) ch', items !! j = Some ch' →
      ∃ n, ch' !! "name" = Some n ∧ eq_str n name = false) →
   (get_channel_by_name client api_call slack_client name w).1 =
     Throw (Exception (could_not_find_channel resp))).
Proof.
  intros Hmiss Hcall Hok Htruthy Hchannels.
  assert (∀ found, find_named items name = Done found →
            (get_channel_by_name client api_call slack_client name w).1 =
            match found with
            | Some id => Done id
            | None => Throw (Exception (could_not_find_channel resp))
            end) as Hrun.
  { intros found Hfound.
    unfold get_channel_by_name, lru_cache. rewrite Hmiss.
    unfold get_channel_by_name_wrapped, call, lift, raise.
    unfold mbind, action_bind, mret, action_ret. simpl.
    rewrite Hcall. simpl. rewrite (getitem_Some _ _ _ Hok). simpl.
    rewrite Htruthy. simpl. rewrite (getitem_Some _ _ _ Hchannels). simpl.
    rewrite Hfound. by destruct found. }
  split.
  - intros i ch id Hi Hname Hid Hbefore.
    by rewrite (Hrun (Some id)) by by apply (find_named_first _ _ i ch).
  - intros Hnone. by rewrite (Hrun None) by by apply find_named_none.
Qed.

(** What a call that returns leaves in the cache: its own result, and
    nothing under a key that was not there. *)
Lemma get_channel_by_name_stores (slack_client : nat) (name : string)
    (w w1 : world client) (id : scalar) :
  get_channel_by_name client api_call slack_client name w = (Done id, w1) →
  cache_find (slack_client, name) (channel_cache w1) = Some id ∧
  ∀ k, k ≠ (slack_client, name) →
       cache_find k (channel_cache w) = None →
       cache_find k (channel_cache w1) = None.
Proof.
  unfold get_channel_by_name, lru_cache.
  destruct (cache_find (slack_client, name) (channel_cache w)) as [v|] eqn:Hfind.
  - intros [= <- <-]. simpl. split; [apply cache_find_touch |].
    intros k Hk Hnone. unfold touch. simpl.
    rewrite bool_decide_eq_false_2 by congruence. by apply cache_find_drop_none.
  - pose proof (wrapped_frame slack_client name w) as (_ & _ & Hcache & _).
    destruct (get_channel_by_name_wrapped client api_call slack_client name w)
      as [[v|e] w']; [| done].
    intros [= <- <-]. simpl in *. split; [apply cache_find_store |].
    intros k Hk Hnone. rewrite bool_decide_eq_false_2 by congruence.
    apply cache_find_take_none. by rewrite Hcache.
Qed.

(** X10: once [get_channel_by_name] has returned an id for a client object
    and a name, the next call with the same client object and the same name
    returns the same id without sending a request, whatever has become of
    the workspace in between: the cached id is never checked again.  A call
    with another client object, for which nothing was cached, does send the
    request. *)
Theorem get_channel_by_name_cached (slack_client : nat) (name : string)
    (w w1 : world client) (id : scalar) :
  get_channel_by_name client api_call slack_client name w = (Done id, w1) →
  (∀ states : nat → client,
     (get_channel_by_name client api_call slack_client name
        (with_clients client states w1)).1 = Done id ∧
     clients (get_channel_by_name client api_call slack_client name
                (with_clients client states w1)).2 = states ∧
     sent (get_channel_by_name client api_call slack_client name
             (with_clients client states w1)).2 = sent w1) ∧
  (∀ other : nat,
     other ≠ slack_client →
     cache_find (other, name) (channel_cache w) = None →
     sent (get_channel_by_name client api_call other name w1).2 =
       sent w1 ++ [(other, channels_list)]).
Proof.
  intros [Hhit Hothers]%get_channel_by_name_stores. split.
  - intros states. unfold get_channel_by_name, lru_cache. simpl.
    by rewrite Hhit.
  - intros other Hother Hnone.
    unfold get_channel_by_name, lru_cache.
    rewrite (Hothers (other, name)) by (done || congruence).
    pose proof (wrapped_frame other name w1) as (Hsent & _).
    by destruct (get_channel_by_name_wrapped client api_call other name w1)
      as [[v|e] w'].
Qed.

(** X11: a call of [get_channel_by_name] that raises stores nothing: the
    cache is as before, it has no entry for the client and the name, and the
    request was sent, so the next such call asks the workspace again. *)
Theorem get_channel_by_name_failure_not_cached (slack_client : nat)
    (name : string) (w w1 : world client) (e : error) :
  get_channel_by_name client api_call slack_client name w = (Throw e, w1) →
  channel_cache w1 = channel_cache w ∧
  cache_find (slack_client, name) (channel_cache w1) = None ∧
  sent w1 = sent w ++ [(slack_client, channels_list)].
Proof.
  unfold get_channel_by_name, lru_cache.
  destruct (cache_find (slack_client, name) (channel_cache w)) as [v|] eqn:Hfind;
    [done |].
  pose proof (wrapped_frame slack_client name w) as (Hsent & _ & Hcache & _).
  destruct (get_channel_by_name_wrapped client api_call slack_client name w)
    as [[v|e'] w']; [done |].
  intros [= <- <-]. simpl in *. by rewrite Hcache.
Qed.

(** X12: the cache of [get_channel_by_name] never holds more than 128
    entries and never holds a key twice, and a call leaves the cache of
    [get_user_by_name] alone; the same holds with the two functions
    exchanged. *)
Theorem lru_cache_invariant (slack_client : nat) (name : string)
    (w : world client) :
  (let w' := (get_channel_by_name client api_call slack_client name w).2 in
   ((length (channel_cache w) ≤ maxsize)%nat →
    (length (channel_cache w') ≤ maxsize)%nat) ∧
   (NoDup (channel_cache w).*1 → NoDup (channel_cache w').*1) ∧
   user_cache w' = user_cache w) ∧
  (let w' := (get_user_by_name client api_call slack_client name w).2 in
   ((length (user_cache w) ≤ maxsize)%nat →
    (length (user_cache w') ≤ maxsize)%nat) ∧
   (NoDup (user_cache w).*1 → NoDup (user_cache w').*1) ∧
   channel_cache w' = channel_cache w).
Proof.
  split.
  - unfold get_channel_by_name, lru_cache.
    destruct (cache_find (slack_client, name) (channel_cache w))
      as [v|] eqn:Hfind; simpl.
    + destruct (touch_invariant (slack_client, name) v _ Hfind).
      by repeat split.
    + pose proof (wrapped_frame slack_client name w) as (_ & _ & Hcache & Huser).
      destruct (get_channel_by_name_wrapped client api_call slack_client name w)
        as [[v|e] w']; simpl in *.
      * rewrite Hcache.
        destruct (store_invariant (slack_client, name) v _ Hfind).
        by repeat split.
      * by rewrite Hcache.
  - unfold get_user_by_name, lru_cache.
    destruct (cache_find (slack_client, name) (user_cache w))
      as [v|] eqn:Hfind; simpl.
    + destruct (touch_invariant (slack_client, name) v _ Hfind).
      by repeat split.
    + pose proof (user_wrapped_frame slack_client name w)
        as (_ & _ & Hcache & Huser).
      destruct (get_user_by_name_wrapped client api_call slack_client name w)
        as [[v|e] w']; simpl in *.
      * rewrite Huser.
        destruct (store_invariant (slack_client, name) v _ Hfind).
        by repeat split.
      * by rewrite Huser.
Qed.




(** X15: [post_message] sends exactly one request.  When it returns, it
    returns the answer of the workspace, whose ['ok'] is truthy, and logs
    nothing; when it raises [could not post message], the workspace answered
    with a falsy ['ok'] and that answer is logged as an error. *)
Theorem post_message_outcome (slack_client : nat) (channel text : string)
    (w : world client) :
  let r := post_message client api_call slack_client channel text w in
  sent r.2 = sent w ++ [(slack_client, chat_postMessage channel text)] ∧
  (∀ resp, r.1 = Done resp →
     (api_call (chat_postMessage channel text) (clients w slack_client)).1 =
       inr resp ∧
     (∃ ok, resp !! "ok" = Some ok ∧ truthy ok = true) ∧ log r.2 = log w) ∧
  (r.1 = Throw (Exception could_not_post_message) →
   ∃ resp ok,
     (api_call (chat_postMessage channel text) (clients w slack_client)).1 =
       inr resp ∧
     resp !! "ok" = Some ok ∧ truthy ok = false ∧
     log r.2 = log w ++ [LogError resp]).
Proof.
  unfold post_message, call, lift, raise, logging.
  unfold mbind, action_bind, mret, action_ret. simpl.
  destruct (api_call (chat_postMessage channel text) (clients w slack_client))
    as [[e|resp] c']; simpl; [by repeat split |].
  unfold getitem. destruct (resp !! "ok") as [ok|] eqn:Hok; simpl;
    [| by repeat split].
  destruct (truthy ok) eqn:Htruthy; simpl.
  - split; [done |]. split; [| done].
    intros ? [= <-]. split; [done |]. split; [| done]. by exists ok.
  - split; [done |]. split; [done |]. intros _. by exists resp, ok.
Qed.

(** X16: once the id of [CHANNEL] is cached for a client object,
    [delete_message] with that same client object on an event of another
    channel returns without sending anything and without logging
    anything. *)
Theorem delete_message_other_channel (slack_client : nat) (event : Event)
    (w w1 : world client) (id : scalar) :
  get_channel_by_name client api_call slack_client CHANNEL w = (Done id, w1) →
  eq_str id (channel event) = false →
  (delete_message client api_call CHANNEL slack_client event w1).1 = Done () ∧
  sent (delete_message client api_call CHANNEL slack_client event w1).2 =
    sent w1 ∧
  log (delete_message client api_call CHANNEL slack_client event w1).2 =
    log w1 ∧
  clients (delete_message client api_call CHANNEL slack_client event w1).2 =
    clients w1.
Proof.
  intros [Hhit _]%get_channel_by_name_stores Hother.
  unfold delete_message, mbind, action_bind, mret, action_ret.
  unfold get_channel_by_name, lru_cache. rewrite Hhit. simpl.
  by rewrite Hother.
Qed.

End ClientFacts.

Lemma delete_message_other_channel_witness :
  let w1 := (get_channel_by_name nat demo_api 0%nat "random" demo_world).2 in
  (delete_message nat demo_api "random" 0%nat demo_event w1).1 = Done () ∧
  sent (delete_message nat demo_api "random" 0%nat demo_event w1).2 = sent w1 ∧
  log (delete_message nat demo_api "random" 0%nat demo_event w1).2 = log w1 ∧
  clients (delete_message nat demo_api "random" 0%nat demo_event w1).2 =
    clients w1.
Proof.
  apply (delete_message_other_channel nat demo_api "random" 0%nat demo_event
           demo_world _ (SStr "C2")); reflexivity.
Defined.

Lemma get_channel_by_name_first_witness :
  (get_channel_by_name nat demo_api 0%nat "general" demo_world).1 =
    Done (SStr "C1").
Proof.
  apply (proj1 (get_channel_by_name_first nat demo_api 0%nat "general"
                  demo_world
                  {[ "ok" := Scalar (SBool true);
                     "channels" := Items demo_channels ]}
                  1%nat (Scalar (SBool true)) demo_channels
                  eq_refl eq_refl eq_refl eq_refl eq_refl)
           0%nat {[ "name" := SStr "general"; "id" := SStr "C1" ]});
    [reflexivity.. |].
  intros j ch' Hj. lia.
Defined.

Lemma get_channel_by_name_cached_witness :
  let w1 := (get_channel_by_name nat demo_api 0%nat "general" demo_world).2 in
  ((get_channel_by_name nat demo_api 0%nat "general"
      (with_clients nat (λ _, 7%nat) w1)).1 = Done (SStr "C1") ∧
   sent (get_channel_by_name nat demo_api 0%nat "general"
           (with_clients nat (λ _, 7%nat) w1)).2 = sent w1) ∧
  sent (get_channel_by_name nat demo_api 1%nat "general" w1).2 =
    sent w1 ++ [(1%nat, channels_list)].
Proof.
  destruct (get_channel_by_name_cached nat demo_api 0%nat "general" demo_world
              (get_channel_by_name nat demo_api 0%nat "general" demo_world).2
              (SStr "C1") eq_refl) as [Hsame Hother].
  split.
  - destruct (Hsame (λ _, 7%nat)) as (Hid & _ & Hsent). by split.
  - apply Hother; [discriminate | reflexivity].
Defined.

Lemma get_channel_by_name_failure_not_cached_witness :
  let w1 := (get_channel_by_name nat demo_api 0%nat "nowhere" demo_world).2 in
  channel_cache w1 = channel_cache demo_world ∧
  cache_find (0%nat, "nowhere") (channel_cache w1) = None ∧
  sent w1 = sent demo_world ++ [(0%nat, channels_list)].
Proof.
  eapply (get_channel_by_name_failure_not_cached nat demo_api 0%nat "nowhere").
  reflexivity.
Defined.



End ApiFacts.
